(** * docker-kicker: a shallow embedding of the launcher's bookkeeping

    The repository ships the same application twice: [src/app.js], which
    reads its configuration from environment variables, and a second copy
    that reads it from files and adds registry credentials, a key-uniqueness
    check and the translation of query parameters into environment
    variables.  The class [ConfigEntry], [cleanConfigName] and the tracker
    functions are shared word for word; what differs lives in the modules
    [Flat] (for [src/app.js]) and [Nested] (for the file-based copy).

    Conventions of the embedding.
    - A JavaScript string (without unpaired surrogates) is a [string]: the
      bytes of its UTF-8 encoding.
    - A JavaScript number is a [Num]: an integer, a number with a fractional
      part, or an infinity; a conversion to a number that gives [NaN] is
      [None].
    - A thrown exception is a value of [Thrown]; a function that can throw
      returns [Thrown + A].
    - The output of logging ([logger.info], [logger.warn], ...) is left
      out; the evaluation of the arguments of a logging call is kept where
      it can throw. *)

From Stdlib Require Import ZArith QArith Lqa Ascii String.
From stdpp Require Import base option list gmap strings.

Set Warnings "-register-all".
Local Open Scope string_scope.

(** ** JavaScript values *)

(** The numbers [JSON.parse] can return.  A number that is not an integer
    is its floor and the binary digits after the point, of which the last is
    a one: [bits] holds them lowest constructor first, so that [xH] is .1
    (one half), [xO xH] is .01 and [xI xH] is .11.  Every finite double that
    is not an integer has exactly one such form; 1.5 is [NumFrac 1 xH].  A
    literal beyond the range of doubles parses to an infinity. *)
Inductive Num :=
| NumInt (n : Z)
| NumFrac (floor : Z) (bits : positive)
| NumInf (negative : bool).

#[global] Instance Num_eq_dec : EqDecision Num.
Proof. solve_decision. Defined.

(** The value of the digits after the point, strictly between 0 and 1. *)
Fixpoint frac_value (bits : positive) : Q :=
  match bits with
  | xH => 1 # 2
  | xO p => (frac_value p * (1 # 2))%Q
  | xI p => ((1 # 2) + frac_value p * (1 # 2))%Q
  end.

(** The value of a finite number. *)
Definition Num_value (x : Num) : option Q :=
  match x with
  | NumInt n => Some (inject_Z n)
  | NumFrac fl bits => Some (inject_Z fl + frac_value bits)%Q
  | NumInf _ => None
  end.

(** The primitive values a scalar field of the parsed JSON configuration can
    hold, together with [undefined] for an absent property. *)
Inductive JsVal :=
| JsUndefined
| JsNull
| JsBool (b : bool)
| JsNumber (x : Num)
| JsStr (s : string).

(** An integer as a value. *)
Abbreviation JsNum n := (JsNumber (NumInt n)).

#[global] Instance JsVal_eq_dec : EqDecision JsVal.
Proof. solve_decision. Defined.

(** ToBoolean. *)
Definition truthy (v : JsVal) : bool :=
  match v with
  | JsUndefined | JsNull => false
  | JsBool b => b
  | JsNum n => negb (n =? 0)%Z
  | JsNumber (NumFrac _ _) | JsNumber (NumInf _) => true
  | JsStr s => negb (String.eqb s "")
  end.

(** [a || b] on values. *)
Definition js_or (a b : JsVal) : JsVal := if truthy a then a else b.

(** What a [throw] carries: a message string, as the validator throws them,
    or one of the built-in error objects. *)
Inductive Thrown :=
| ThrowStr (msg : string)
| TypeError
| URIError.

#[global] Instance Thrown_eq_dec : EqDecision Thrown.
Proof. solve_decision. Defined.

(** A small error monad for code that may throw. *)
Definition Js (A : Type) : Type := Thrown + A.

Definition throw {A} (e : Thrown) : Js A := inl e.

#[global] Instance Js_ret : MRet Js := λ A a, inr a.
#[global] Instance Js_bind : MBind Js := λ A B k m,
  match m with
  | inl e => inl e
  | inr a => k a
  end.

#[global] Instance Js_fmap : FMap Js := λ A B f m,
  match m with
  | inl e => inl e
  | inr a => inr (f a)
  end.

Definition throws {A} (m : Js A) : bool :=
  match m with inl _ => true | inr _ => false end.

(** [Array.prototype.forEach] with a callback that may throw. *)
Fixpoint forEach {A} (f : A → Js unit) (l : list A) : Js unit :=
  match l with
  | [] => mret tt
  | x :: l' => _ ← f x; forEach f l'
  end.

(** [Array.prototype.map] with a callback that may throw. *)
Fixpoint mapJs {A B} (f : A → Js B) (l : list A) : Js (list B) :=
  match l with
  | [] => mret []
  | x :: l' => y ← f x; ys ← mapJs f l'; mret (y :: ys)
  end.

(** ** cleanConfigName *)

(** The character class [[\W_]]: everything but ASCII letters and digits. *)
Definition is_alnum (c : ascii) : bool :=
  let n := nat_of_ascii c in
  (((48 <=? n) && (n <=? 57)) || ((65 <=? n) && (n <=? 90))
   || ((97 <=? n) && (n <=? 122)))%nat.

Definition in_class (c : ascii) : bool := negb (is_alnum c).

(** [s.replace(/[\W_]+/g, "-")], as the matcher runs it: scanning from the
    left, a character of the class opens a match, which greedily extends over
    the following characters of the class and is replaced by one dash;
    [matching] tells whether the scan is inside such a match. *)
Fixpoint replace_runs (matching : bool) (s : string) : string :=
  match s with
  | EmptyString => EmptyString
  | String c r =>
      if in_class c then
        if matching then replace_runs true r
        else String "-" (replace_runs true r)
      else String c (replace_runs false r)
  end.

Definition cleanConfigName (name : string) : string :=
  replace_runs false name.

(** The same function read off the specification's words: cut the string
    into its maximal runs of characters of one kind, and put a single dash
    for every run that is not alphanumeric. *)
Fixpoint maximal_runs (s : string) : list (bool * string) :=
  match s with
  | EmptyString => []
  | String c r =>
      match maximal_runs r with
      | (b, t) :: rest =>
          if Bool.eqb b (in_class c) then (b, String c t) :: rest
          else (in_class c, String c EmptyString) :: (b, t) :: rest
      | [] => [(in_class c, String c EmptyString)]
      end
  end.

Definition dash_for_run (r : bool * string) : string :=
  if r.1 then "-" else r.2.

Definition concat_strings (l : list string) : string :=
  foldr String.append EmptyString l.

Definition cleanConfigName_spec (name : string) : string :=
  concat_strings (dash_for_run <$> maximal_runs name).

(** All characters of a string satisfy a test. *)
Fixpoint string_forall (p : ascii → bool) (s : string) : bool :=
  match s with
  | EmptyString => true
  | String c r => p c && string_forall p r
  end.

(** A list of runs is a decomposition into maximal runs: every run is
    non-empty and of one kind, and neighbours are of different kinds. *)
Fixpoint runs_maximal (l : list (bool * string)) : Prop :=
  match l with
  | [] => True
  | (b, t) :: rest =>
      t ≠ EmptyString
      ∧ string_forall (λ c, Bool.eqb (in_class c) b) t = true
      ∧ match rest with
        | (b', _) :: _ => b' ≠ b
        | [] => True
        end
      ∧ runs_maximal rest
  end.

(** ** decodeURIComponent *)

(** The built-in is not part of the repository; this is the [Decode]
    operation of ECMA-262 with an empty set of preserved escapes, on the
    UTF-8 bytes of the strings.  A character other than [%] is copied.  [%]
    must be followed by two hexadecimal digits giving an octet [B]; an octet
    below 0x80 stands for itself, an octet announcing an [n]-byte sequence
    (n = 2, 3, 4) must be followed by [n - 1] further escapes, and the [n]
    octets must be the UTF-8 encoding of a code point.  Anything else is a
    [URIError]. *)

Local Open Scope Z_scope.

Definition hex_digit (c : ascii) : option Z :=
  let n := Z.of_nat (nat_of_ascii c) in
  if (48 <=? n) && (n <=? 57) then Some (n - 48)
  else if (65 <=? n) && (n <=? 70) then Some (n - 55)
  else if (97 <=? n) && (n <=? 102) then Some (n - 87)
  else None.

Definition ParseHexOctet (h1 h2 : ascii) : option Z :=
  match hex_digit h1, hex_digit h2 with
  | Some a, Some b => Some (16 * a + b)
  | _, _ => None
  end.

(** The number of leading 1 bits of an octet (5 stands for "more than 4"). *)
Definition leading_ones (B : Z) : nat :=
  if B <? 128 then 0%nat
  else if B <? 192 then 1%nat
  else if B <? 224 then 2%nat
  else if B <? 240 then 3%nat
  else if B <? 248 then 4%nat
  else 5%nat.

Definition in_range (lo hi b : Z) : bool := (lo <=? b) && (b <=? hi).

(** Well-formed UTF-8 sequences of two to four octets: no overlong forms, no
    surrogates, nothing above U+10FFFF. *)
Definition valid_utf8 (octets : list Z) : bool :=
  match octets with
  | [b1; b2] => in_range 194 223 b1 && in_range 128 191 b2
  | [b1; b2; b3] =>
      (if b1 =? 224 then in_range 160 191 b2
       else if b1 =? 237 then in_range 128 159 b2
       else in_range 225 239 b1 && in_range 128 191 b2)
      && in_range 128 191 b3
  | [b1; b2; b3; b4] =>
      (if b1 =? 240 then in_range 144 191 b2
       else if b1 =? 244 then in_range 128 143 b2
       else in_range 241 243 b1 && in_range 128 191 b2)
      && in_range 128 191 b3 && in_range 128 191 b4
  | _ => false
  end.

Definition octet_char (B : Z) : ascii := ascii_of_nat (Z.to_nat B).

Definition octets_string (octets : list Z) (rest : string) : string :=
  foldr (λ B s, String (octet_char B) s) rest octets.

(** [octets] are the octets of the multi-byte sequence being read and [need]
    the number of escapes still missing from it; both are empty and zero
    between sequences. *)
Fixpoint Decode (octets : list Z) (need : nat) (s : string) : Js string :=
  match s with
  | EmptyString =>
      match need with
      | O => mret EmptyString
      | S _ => throw URIError
      end
  | String c r =>
      if Ascii.eqb c "%" then
        match r with
        | String h1 (String h2 r') =>
            match ParseHexOctet h1 h2 with
            | None => throw URIError
            | Some B =>
                match need with
                | O =>
                    match leading_ones B with
                    | O => String (octet_char B) <$> Decode [] 0 r'
                    | 1%nat => throw URIError
                    | S (S k) =>
                        if (3 <=? k)%nat then throw URIError
                        else Decode [B] (S k) r'
                    end
                | S need' =>
                    let octets' := (octets ++ [B])%list in
                    match need' with
                    | O =>
                        if valid_utf8 octets'
                        then octets_string octets' <$> Decode [] 0 r'
                        else throw URIError
                    | S _ => Decode octets' need' r'
                    end
                end
            end
        | _ => throw URIError
        end
      else
        match need with
        | O => String c <$> Decode [] 0 r
        | S _ => throw URIError
        end
  end.

Definition decodeURIComponent (encoded : string) : Js string :=
  Decode [] 0 encoded.

Local Close Scope Z_scope.

(** ** Configuration entries *)

(** A value of the free-form [createOptions] object: parsed JSON. *)
Inductive Json :=
| JPrim (v : JsVal)
| JArr (items : list Json)
| JObj (props : list (string * Json)).

Definition JString (s : string) : Json := JPrim (JsStr s).

(** A JavaScript object used as a record of JSON values. *)
Abbreviation JsObject := (gmap string Json).

(** [{ ...base, ...overlay }]: properties written later win. *)
Definition object_spread (base overlay : JsObject) : JsObject :=
  overlay ∪ base.

(** The code points of a string, each as a string of its own: a new one
    starts at every byte that is not a UTF-8 continuation byte. *)
Definition is_continuation (c : ascii) : bool :=
  let n := nat_of_ascii c in ((128 <=? n) && (n <=? 191))%nat.

Fixpoint code_points (s : string) : list string :=
  match s with
  | EmptyString => []
  | String c r =>
      let rest := code_points r in
      match r, rest with
      | String d _, h :: t =>
          if is_continuation d then String c h :: t
          else String c EmptyString :: rest
      | _, _ => String c EmptyString :: rest
      end
  end.

(** [[...(v ?? [])]]: the elements an array literal receives from spreading
    [v], or the empty array when [v] is absent or null.  Arrays and strings
    are iterable; spreading anything else is a [TypeError]. *)
Definition spread_or_empty (v : option Json) : Js (list Json) :=
  match v with
  | None | Some (JPrim JsUndefined) | Some (JPrim JsNull) => mret []
  | Some (JArr items) => mret items
  | Some (JPrim (JsStr s)) => mret (JString <$> code_points s)
  | Some _ => throw TypeError
  end.

(** Registry credentials, handed to [docker.pull] as they are. *)
Record Auth := {
  username : string;
  password : string;
  email : string;
  serveraddress : string
}.

(** The [allowFrom] field: absent, a single address, or a list. *)
Inductive AllowFrom :=
| AfAbsent
| AfAddress (address : string)
| AfList (addresses : list string).

Definition allowFrom_truthy (a : AllowFrom) : bool :=
  match a with
  | AfAbsent => false
  | AfAddress s => negb (String.eqb s "")
  | AfList _ => true
  end.

(** One element of the parsed configuration array, before [ConfigEntry] is
    built from it. *)
Record Conf := {
  conf_name : JsVal;
  conf_key : JsVal;
  conf_image : JsVal;
  conf_auth : option Auth;
  conf_queryParamsToEnv : option (list string);
  conf_allowFrom : AllowFrom;
  conf_cmd : option (list string);
  conf_createOptions : option JsObject;
  conf_limit : JsVal
}.

(** The fields of [class ConfigEntry]. *)
Record ConfigEntry := {
  _name : JsVal;
  _key : JsVal;
  _image : JsVal;
  _auth : option Auth;
  _queryParamsToEnv : list string;
  _allowFrom : AllowFrom;
  _cmd : list string;
  _createOptions : JsObject;
  _limit : JsVal
}.

(** [new ConfigEntry(conf)], as the file-based variant has it. *)
Definition new_ConfigEntry (conf : Conf) : ConfigEntry := {|
  _name := conf_name conf;
  _key := conf_key conf;
  _image := conf_image conf;
  _auth := conf_auth conf;
  _queryParamsToEnv := default [] (conf_queryParamsToEnv conf);
  _allowFrom :=
    if allowFrom_truthy (conf_allowFrom conf) then conf_allowFrom conf
    else AfList ["127.0.0.1"; "::1"];
  _cmd := default [] (conf_cmd conf);
  _createOptions := default ∅ (conf_createOptions conf);
  _limit := js_or (conf_limit conf) (JsNum 1)
|}.

(** The getters.  [name] cleans the raw name on every read and throws a
    [TypeError] when the raw name is not a string (it has no [replace]). *)
Definition _rawName (e : ConfigEntry) : JsVal := _name e.

Definition name (e : ConfigEntry) : Js string :=
  match _name e with
  | JsStr s => mret (cleanConfigName s)
  | _ => throw TypeError
  end.

Definition key (e : ConfigEntry) : JsVal := _key e.
Definition allowFrom (e : ConfigEntry) : AllowFrom := _allowFrom e.
Definition image (e : ConfigEntry) : JsVal := _image e.
Definition auth (e : ConfigEntry) : option Auth := _auth e.
Definition cmd (e : ConfigEntry) : list string := _cmd e.
Definition queryParamsToEnv (e : ConfigEntry) : list string :=
  _queryParamsToEnv e.
Definition createOptions (e : ConfigEntry) : JsObject := _createOptions e.
Definition limit (e : ConfigEntry) : JsVal := _limit e.

(** [match.createOptions.env = env]: the assignment goes through the getter
    to the object the entry holds, so the entry sees the new property. *)
Definition assign_createOptions (prop : string) (v : Json) (e : ConfigEntry)
  : ConfigEntry := {|
  _name := _name e;
  _key := _key e;
  _image := _image e;
  _auth := _auth e;
  _queryParamsToEnv := _queryParamsToEnv e;
  _allowFrom := _allowFrom e;
  _cmd := _cmd e;
  _createOptions := <[prop := v]> (_createOptions e);
  _limit := _limit e
|}.

(** ** Instance names and the tracker *)

(** [genNewInstanceName]; [uniq] is the value [crypto.randomUUID()]
    returns for this call. *)
Definition genNewInstanceName (configEntry : ConfigEntry) (uniq : string)
  : Js string :=
  rootName ← name configEntry;
  mret (rootName ++ "_" ++ uniq).

(** The module-level [runningMap]: configuration name to the array of
    running instance names. *)
Abbreviation RunningMap := (gmap string (list string)).

(** [Array.prototype.indexOf]: the first index holding [x], or -1. *)
Fixpoint indexOf (l : list string) (x : string) : Z :=
  match l with
  | [] => (-1)%Z
  | y :: l' =>
      if decide (y = x) then 0%Z
      else
        let i := indexOf l' x in
        if (i <? 0)%Z then (-1)%Z else (1 + i)%Z
  end.

(** [Array.prototype.splice] called with a start index only: everything
    from the start index to the end is removed.  A negative start counts
    from the end of the array. *)
Definition splice {A} (start : Z) (l : list A) : list A :=
  let len := Z.of_nat (length l) in
  let actualStart :=
    if (start <? 0)%Z then Z.max (len + start) 0 else Z.min start len in
  take (Z.to_nat actualStart) l.

Section Tracker.

(** The conversion of a string to a number, which JavaScript applies when
    a number is compared with a string, is left open. *)
Variable StringToNumber : string → option Num.

(** ToNumber; [None] is [NaN]. *)
Definition ToNumber (v : JsVal) : option Num :=
  match v with
  | JsUndefined => None
  | JsNull => Some (NumInt 0)
  | JsBool b => Some (NumInt (if b then 1%Z else 0%Z))
  | JsNumber x => Some x
  | JsStr s => StringToNumber s
  end.

(** [len >= v] for an array length [len]: false when [v] is [NaN].  A
    number with a fractional part lies strictly between its floor and the
    next integer, so the length reaches it exactly when it is above the
    floor. *)
Definition length_ge (len : nat) (v : JsVal) : bool :=
  match ToNumber v with
  | Some (NumInt n) => (n <=? Z.of_nat len)%Z
  | Some (NumFrac fl _) => (fl <? Z.of_nat len)%Z
  | Some (NumInf negative) => negative
  | None => false
  end.

Definition tryTrackNewRunningInstance (config : ConfigEntry)
    (instanceName : string) (runningMap : RunningMap)
  : Js (bool * RunningMap) :=
  configName ← name config;
  match runningMap !! configName with
  | Some alreadyRunning =>
      if length_ge (length alreadyRunning) (limit config)
      then mret (false, runningMap)
      else mret (true,
                 <[configName := (alreadyRunning ++ [instanceName])%list]>
                   runningMap)
  | None => mret (true, <[configName := [instanceName]]> runningMap)
  end.

Definition untrackRunningInstance (config : ConfigEntry)
    (instanceName : string) (runningMap : RunningMap) : Js RunningMap :=
  configName ← name config;
  match runningMap !! configName with
  | Some alreadyRunning =>
      if (0 <? length alreadyRunning)%nat
      then mret (<[configName :=
                     splice (indexOf alreadyRunning instanceName)
                       alreadyRunning]> runningMap)
      else mret runningMap
  | None => mret runningMap
  end.

(** The calls the promise chain of a kick makes on the tracker. *)
Inductive TrackerCall :=
| Track (config : ConfigEntry) (instanceName : string)
| Untrack (config : ConfigEntry) (instanceName : string).

(** Run calls in order; the booleans are the answers of the admissions. *)
Fixpoint runCalls (calls : list TrackerCall) (runningMap : RunningMap)
  : Js (list bool * RunningMap) :=
  match calls with
  | [] => mret ([], runningMap)
  | Track config instanceName :: rest =>
      r ← tryTrackNewRunningInstance config instanceName runningMap;
      rs ← runCalls rest r.2;
      mret (r.1 :: rs.1, rs.2)
  | Untrack config instanceName :: rest =>
      m ← untrackRunningInstance config instanceName runningMap;
      runCalls rest m
  end.

(** The tracker states the running program can be in: it starts with an
    empty map, and only the two functions above, called for entries of the
    loaded configuration, change it. *)
Inductive reachable (config : list ConfigEntry) : RunningMap → Prop :=
| reach_start : reachable config ∅
| reach_track m e instanceName r :
    reachable config m → e ∈ config →
    tryTrackNewRunningInstance e instanceName m = inr r →
    reachable config r.2
| reach_untrack m e instanceName m' :
    reachable config m → e ∈ config →
    untrackRunningInstance e instanceName m = inr m' →
    reachable config m'.

End Tracker.

(** The identifiers tracked under a name; none when there is no bucket. *)
Definition bucket (runningMap : RunningMap) (configName : string)
  : list string :=
  default [] (runningMap !! configName).

(** Every entry has a name, and no two entries share one: what both
    validators establish before the server listens. *)
Definition names_distinct (config : list ConfigEntry) : Prop :=
  ∃ names, mapJs name config = inr names ∧ NoDup names.

(** ** Validation *)

(** The callback [tryValidateConfig] passes to [forEach]; its text is the
    same in both variants. *)
Definition check_entry (curr : ConfigEntry) : Js unit :=
  currName ← name curr;
  if String.eqb currName "" then throw (ThrowStr "Missing config name.")
  else if negb (truthy (key curr))
  then throw (ThrowStr ("Missing key for config '" ++ currName ++ "'"))
  else if negb (truthy (image curr))
  then throw (ThrowStr ("Missing image for config '" ++ currName ++ "'"))
  else mret tt.

(** [Array.from(new Set(l)).length !== l.length] *)
Definition has_duplicates `{EqDecision A} (l : list A) : bool :=
  negb (length (remove_dups l) =? length l)%nat.

(** ** The kick request *)

(** A property value of the query object, as the extraction uses it: a
    string, or any other value (an array or a nested object made by the
    query parser, a function of the prototype, ...) given by what the
    conversion to a string makes of it, which is a string or an exception. *)
Inductive PropValue :=
| PString (s : string)
| PConverted (conversion : Js string).

(** ToString, as [decodeURIComponent] applies it to its argument. *)
Definition ToString (v : PropValue) : Js string :=
  match v with
  | PString s => mret s
  | PConverted conversion => conversion
  end.

(** The query object: its own properties and the properties it inherits
    through its prototype chain. *)
Record JsQuery := {
  own_properties : gmap string PropValue;
  inherited_properties : gmap string PropValue
}.

(** [query[key]]: an own property hides an inherited one of the same name;
    [None] is [undefined]. *)
Definition query_get (query : JsQuery) (k : string) : option PropValue :=
  match own_properties query !! k with
  | Some v => Some v
  | None => inherited_properties query !! k
  end.

(** [key in query]: true for own and for inherited properties. *)
Definition query_has (query : JsQuery) (k : string) : Prop :=
  is_Some (query_get query k).

(** The properties every plain object inherits from [Object.prototype], each
    with what converting it to a string gives on the runtime of the
    Dockerfile (Node.js). *)
Definition native (f : string) : PropValue :=
  PConverted (inr ("function " ++ f ++ "() { [native code] }")).

Definition Object_prototype : gmap string PropValue :=
  list_to_map
    [("constructor", native "Object");
     ("__defineGetter__", native "__defineGetter__");
     ("__defineSetter__", native "__defineSetter__");
     ("hasOwnProperty", native "hasOwnProperty");
     ("__lookupGetter__", native "__lookupGetter__");
     ("__lookupSetter__", native "__lookupSetter__");
     ("isPrototypeOf", native "isPrototypeOf");
     ("propertyIsEnumerable", native "propertyIsEnumerable");
     ("toString", native "toString");
     ("valueOf", native "valueOf");
     ("__proto__", PConverted (inr "[object Object]"));
     ("toLocaleString", native "toLocaleString")].

(** A plain object with the given string-valued own properties. *)
Definition plain_query (own : gmap string string) : JsQuery := {|
  own_properties := PString <$> own;
  inherited_properties := Object_prototype
|}.

(** What the handler reads of a request: the key of the path, the client
    address (as Express or the proxy-aware resolver reports it) and the
    parsed query string. *)
Record Request := {
  req_key : string;
  req_clientIp : string;
  req_query : JsQuery
}.

(** How the synchronous part of the handler ends: with an early response, or
    with [docker.pull] started for a launch carrying the built options and
    the response 200. *)
Inductive Outcome :=
| Respond (status : Z)
| Kicked (pulled : JsVal) (cmdline : list string) (options : JsObject).

(** The allowlist test of the handler; true when the request is refused. *)
Definition address_refused (a : AllowFrom) (clientIp : string) : bool :=
  match a with
  | AfAbsent => false
  | AfAddress s => negb (String.eqb s "") && negb (String.eqb s clientIp)
  | AfList l => negb (existsb (λ af, String.eqb af clientIp) l)
  end.

(** [config.find((e) => e.key === key)], with the position of the match. *)
Definition find_key (config : list ConfigEntry) (k : string)
  : option (nat * ConfigEntry) :=
  list_find (λ e, key e = JsStr k) config.

(** The variant of [src/app.js]: configuration from the environment. *)
Module Flat.

(** Its constructor knows neither [auth] nor [queryParamsToEnv]. *)
Definition new_ConfigEntry (conf : Conf) : ConfigEntry := {|
  _name := conf_name conf;
  _key := conf_key conf;
  _image := conf_image conf;
  _auth := None;
  _queryParamsToEnv := [];
  _allowFrom :=
    if allowFrom_truthy (conf_allowFrom conf) then conf_allowFrom conf
    else AfList ["127.0.0.1"; "::1"];
  _cmd := default [] (conf_cmd conf);
  _createOptions := default ∅ (conf_createOptions conf);
  _limit := js_or (conf_limit conf) (JsNum 1)
|}.

Definition tryValidateConfig (configArray : list ConfigEntry) : Js unit :=
  _ ← forEach check_entry configArray;
  allNames ← mapJs name configArray;
  if has_duplicates allNames
  then throw (ThrowStr "Configuration entry names must be unique.")
  else mret tt.

(** The handler of [POST /:key] up to the call of [docker.pull].  The
    configuration is returned with the outcome, as for the other
    variant. *)
Definition kick (config : list ConfigEntry) (req : Request)
    (uniq : string) : list ConfigEntry * Js Outcome :=
  match find_key config (req_key req) with
  | None => (config, mret (Respond 400))
  | Some (_, matched) =>
      if address_refused (allowFrom matched) (req_clientIp req)
      then (config, mret (Respond 403))
      else
        (config,
         (* the arguments of [logger.info]: [match.name] is read *)
         _ ← name matched;
         instanceName ← genNewInstanceName matched uniq;
         mret (Kicked (image matched) (cmd matched)
                 (object_spread {[ "name" := JString instanceName ]}
                    (createOptions matched))))
  end.

End Flat.

(** The file-based variant. *)
Module Nested.

Definition tryValidateConfig (configArray : list ConfigEntry) : Js unit :=
  _ ← forEach check_entry configArray;
  allNames ← mapJs name configArray;
  if has_duplicates allNames
  then throw (ThrowStr "Configuration entry names must be unique.")
  else
    let allKeys := key <$> configArray in
    if has_duplicates allKeys
    then throw (ThrowStr "Configuration entry keys must be unique.")
    else mret tt.

(** The filter keeps the names for which [key in query] holds; the map
    reads [query[key]], converts it to a string, decodes it and puts the
    name in front. *)
Definition extractAllowedQueryParams (config : ConfigEntry)
    (query : JsQuery) : Js (list string) :=
  mapJs
    (λ k, text ← match query_get query k with
                 | Some v => ToString v
                 | None => mret "undefined"
                 end;
          decoded ← decodeURIComponent text;
          mret (k ++ "=" ++ decoded))
    (filter (λ k, query_has query k) (queryParamsToEnv config)).

(** The handler of [POST /:key] up to the call of [docker.pull].  The list
    returned is the configuration as the handler leaves it: the entries
    are shared objects, and the handler writes into the matched one. *)
Definition kick (config : list ConfigEntry) (req : Request)
    (uniq : string) : list ConfigEntry * Js Outcome :=
  match find_key config (req_key req) with
  | None => (config, mret (Respond 400))
  | Some (i, matched) =>
      if address_refused (allowFrom matched) (req_clientIp req)
      then (config, mret (Respond 403))
      else
        (* the arguments of [logger.info]: [match.name] is read *)
        match name matched with
        | inl e => (config, throw e)
        | inr _ =>
            match extractAllowedQueryParams matched (req_query req) with
            | inl e => (config, throw e)
            | inr queryToEnvVars =>
                (* [if (queryToEnvVars)]: an array is truthy, also when
                   empty *)
                match spread_or_empty (createOptions matched !! "env") with
                | inl e => (config, throw e)
                | inr configured =>
                    let env :=
                      JArr (configured ++ (JString <$> queryToEnvVars))%list
                    in
                    let matched' := assign_createOptions "env" env matched in
                    (<[i := matched']> config,
                     instanceName ← genNewInstanceName matched' uniq;
                     mret (Kicked (image matched') (cmd matched')
                             (object_spread
                                {[ "name" := JString instanceName ]}
                                (createOptions matched'))))
                end
            end
        end
  end.

End Nested.

(** An entry has all three required fields. *)
Definition complete (e : ConfigEntry) : bool :=
  truthy (_name e) && truthy (key e) && truthy (image e).

(** An entry the per-entry checks accept: the name is a non-empty string,
    key and image are present. *)
Definition well_formed (e : ConfigEntry) : Prop :=
  (∃ raw, _name e = JsStr raw ∧ raw ≠ "")
  ∧ truthy (key e) = true ∧ truthy (image e) = true.

(** ** Sample data *)

Definition conf_limit_zero : Conf := {|
  conf_name := JsStr "nightly build";
  conf_key := JsStr "s3cr3t";
  conf_image := JsStr "alpine:3";
  conf_auth := None;
  conf_queryParamsToEnv := None;
  conf_allowFrom := AfAbsent;
  conf_cmd := None;
  conf_createOptions := None;
  conf_limit := JsNum 0
|}.

Definition entry_limit_two : ConfigEntry := {|
  _name := JsStr "svc";
  _key := JsStr "k";
  _image := JsStr "alpine:3";
  _auth := None;
  _queryParamsToEnv := [];
  _allowFrom := AfList ["127.0.0.1"; "::1"];
  _cmd := [];
  _createOptions := ∅;
  _limit := JsNum 2
|}.

(** An entry with the limit 1.5. *)
Definition entry_limit_frac : ConfigEntry := {|
  _name := JsStr "svc";
  _key := JsStr "k";
  _image := JsStr "alpine:3";
  _auth := None;
  _queryParamsToEnv := [];
  _allowFrom := AfList ["127.0.0.1"; "::1"];
  _cmd := [];
  _createOptions := ∅;
  _limit := JsNumber (NumFrac 1 xH)
|}.

(** Two entries that differ in name and share their key. *)
Definition entry_svc_a : ConfigEntry := {|
  _name := JsStr "svc a";
  _key := JsStr "shared-key";
  _image := JsStr "alpine:3";
  _auth := None;
  _queryParamsToEnv := [];
  _allowFrom := AfList ["127.0.0.1"; "::1"];
  _cmd := [];
  _createOptions := ∅;
  _limit := JsNum 1
|}.

Definition entry_svc_b : ConfigEntry := {|
  _name := JsStr "svc b";
  _key := JsStr "shared-key";
  _image := JsStr "busybox:1";
  _auth := None;
  _queryParamsToEnv := [];
  _allowFrom := AfList ["127.0.0.1"; "::1"];
  _cmd := [];
  _createOptions := ∅;
  _limit := JsNum 1
|}.

(** An entry that allowlists the query parameter FOO and configures one
    environment variable. *)
Definition entry_allow_foo : ConfigEntry := {|
  _name := JsStr "svc";
  _key := JsStr "k";
  _image := JsStr "alpine:3";
  _auth := None;
  _queryParamsToEnv := ["FOO"];
  _allowFrom := AfList ["127.0.0.1"; "::1"];
  _cmd := [];
  _createOptions := {[ "env" := JArr [JString "A=1"] ]};
  _limit := JsNum 1
|}.


(** An entry that allowlists a name every plain object inherits. *)
Definition entry_allow_toString : ConfigEntry := {|
  _name := JsStr "svc";
  _key := JsStr "k";
  _image := JsStr "alpine:3";
  _auth := None;
  _queryParamsToEnv := ["toString"];
  _allowFrom := AfList ["127.0.0.1"; "::1"];
  _cmd := [];
  _createOptions := ∅;
  _limit := JsNum 1
|}.

(** An entry whose [createOptions] carry a [name] of their own. *)
Definition entry_named : ConfigEntry := {|
  _name := JsStr "svc";
  _key := JsStr "k";
  _image := JsStr "alpine:3";
  _auth := None;
  _queryParamsToEnv := [];
  _allowFrom := AfList ["127.0.0.1"; "::1"];
  _cmd := [];
  _createOptions := {[ "name" := JString "fixed" ]};
  _limit := JsNum 2
|}.

Definition request_with (query : gmap string string) : Request := {|
  req_key := "k";
  req_clientIp := "127.0.0.1";
  req_query := plain_query query
|}.


(** The allowlisted names that the query carries, in allowlist order. *)
Definition allowed_present (e : ConfigEntry) (query : JsQuery)
  : list string :=
  filter (λ k, query_has query k) (queryParamsToEnv e).

(** ** Startup *)

(** What [JSON.parse] hands to the startup code, as far as that code looks
    at it: something that is not an array, or an array whose elements are
    objects (or primitives, which have none of the properties read and so
    behave as an object with every field absent) or [null]. *)
Inductive ConfigRaw :=
| NotAnArray
| ConfigArray (elements : list (option Conf)).

(** The startup sequence between parsing and [app.listen]: the array test,
    the construction of the entries and the validation.  [construct] and
    [validate] are the constructor and the validator of the variant; reading
    [conf.name] of a [null] element is a [TypeError]. *)
Definition startup (construct : Conf → ConfigEntry)
    (validate : list ConfigEntry → Js unit) (configRaw : ConfigRaw)
  : Js (list ConfigEntry) :=
  match configRaw with
  | NotAnArray => throw (ThrowStr "Invalid config.")
  | ConfigArray elements =>
      config ← mapJs (λ r, match r with
                           | Some conf => mret (construct conf)
                           | None => throw TypeError
                           end) elements;
      _ ← validate config;
      mret config
  end.

Definition Flat_startup : ConfigRaw → Js (list ConfigEntry) :=
  startup Flat.new_ConfigEntry Flat.tryValidateConfig.

Definition Nested_startup : ConfigRaw → Js (list ConfigEntry) :=
  startup new_ConfigEntry Nested.tryValidateConfig.

(** ** Vocabulary of the further properties *)

Definition is_dash (c : ascii) : bool := Ascii.eqb c "-".

Definition alnum_or_dash (c : ascii) : bool := is_alnum c || is_dash c.

(** No two dashes next to each other. *)
Fixpoint no_double_dash (s : string) : bool :=
  match s with
  | String a (String b _ as t) =>
      negb (is_dash a && is_dash b) && no_double_dash t
  | _ => true
  end.

Definition not_percent (c : ascii) : bool := negb (Ascii.eqb c "%").

(** [s] renders the parameter [k] of the query with its value as it is. *)
Definition verbatim_from (query : JsQuery) (k s : string) : Prop :=
  ∃ v text, query_get query k = Some v ∧ ToString v = inr text
            ∧ s = k ++ "=" ++ text.

(** An entry with its key replaced, for examples. *)
Definition assign_key (k : JsVal) (e : ConfigEntry) : ConfigEntry := {|
  _name := _name e;
  _key := k;
  _image := _image e;
  _auth := _auth e;
  _queryParamsToEnv := _queryParamsToEnv e;
  _allowFrom := _allowFrom e;
  _cmd := _cmd e;
  _createOptions := _createOptions e;
  _limit := _limit e
|}.

(** Two entries agree in everything but the [env] property of their
    [createOptions]. *)
Definition same_but_env (e e' : ConfigEntry) : Prop :=
  _name e' = _name e ∧ _key e' = _key e ∧ _image e' = _image e
  ∧ _auth e' = _auth e ∧ _queryParamsToEnv e' = _queryParamsToEnv e
  ∧ _allowFrom e' = _allowFrom e ∧ _cmd e' = _cmd e ∧ _limit e' = _limit e
  ∧ ∀ p, p ≠ "env" → _createOptions e' !! p = _createOptions e !! p.

(** An entry with its limit replaced, for examples. *)
Definition assign_limit (l : JsVal) (e : ConfigEntry) : ConfigEntry := {|
  _name := _name e;
  _key := _key e;
  _image := _image e;
  _auth := _auth e;
  _queryParamsToEnv := _queryParamsToEnv e;
  _allowFrom := _allowFrom e;
  _cmd := _cmd e;
  _createOptions := _createOptions e;
  _limit := l
|}.

(** * Properties *)

(** ** Name cleaning *)

Example cleanConfigName_edges :
  cleanConfigName "  a!!" = "-a-" ∧ cleanConfigName "__" = "-"
  ∧ cleanConfigName "" = "" ∧ cleanConfigName "Ab9" = "Ab9".
Proof. repeat split; reflexivity. Qed.

Lemma replace_runs_idempotent (matching : bool) (s : string) :
  replace_runs matching (replace_runs matching s) = replace_runs matching s.
Proof.
  revert matching. induction s as [|c r IH]; intros matching; [done|].
  simpl. destruct (in_class c) eqn:Hc.
  - destruct matching; [apply IH|].
    simpl. change (in_class "-") with true. simpl. by rewrite IH.
  - simpl. rewrite Hc. by rewrite IH.
Qed.

Lemma maximal_runs_concat (s : string) :
  concat_strings (snd <$> maximal_runs s) = s.
Proof.
  induction s as [|c r IH]; [done|].
  simpl. destruct (maximal_runs r) as [|[b t] rest]; simpl in *.
  - by rewrite <- IH.
  - destruct (Bool.eqb b (in_class c)); simpl; by rewrite <- IH.
Qed.

Lemma maximal_runs_maximal (s : string) : runs_maximal (maximal_runs s).
Proof.
  induction s as [|c r IH]; [done|].
  simpl. destruct (maximal_runs r) as [|[b t] rest] eqn:Hr.
  - simpl. rewrite Bool.eqb_reflx. done.
  - destruct (Bool.eqb b (in_class c)) eqn:Hb.
    + apply Bool.eqb_prop in Hb. subst b.
      simpl in *. destruct IH as (Ht & Hall & Hnext & Hrest).
      rewrite Bool.eqb_reflx. simpl. done.
    + apply Bool.eqb_false_iff in Hb.
      simpl. rewrite Bool.eqb_reflx. simpl in IH. done.
Qed.

(** The scan and the decomposition into runs agree; inside a match the scan
    leaves out the dash of the run it is in. *)
Lemma replace_runs_maximal_runs (s : string) :
  replace_runs false s = concat_strings (dash_for_run <$> maximal_runs s)
  ∧ replace_runs true s =
      match maximal_runs s with
      | (true, _) :: rest => concat_strings (dash_for_run <$> rest)
      | l => concat_strings (dash_for_run <$> l)
      end.
Proof.
  induction s as [|c r [IHf IHt]]; [done|].
  simpl. rewrite IHf, IHt. clear IHf IHt.
  destruct (maximal_runs r) as [|[b t] rest];
    destruct (in_class c) eqn:Hc; simpl; try done.
  - destruct b; simpl; done.
  - destruct b; simpl; done.
Qed.

Lemma cleanConfigName_refines_spec (s : string) :
  cleanConfigName s = cleanConfigName_spec s.
Proof. apply replace_runs_maximal_runs. Qed.

(** C8.  [cleanConfigName] puts one dash for every maximal run of characters
    that are not ASCII letters or digits (the runs cover the string, are
    non-empty, of one kind each and alternate in kind, and the result is the
    runs in order with each non-alphanumeric one replaced by a dash); it is
    idempotent; and it sends "a b_c!d" to "a-b-c-d". *)
Theorem cleanConfigName_runs_idempotent :
  (∀ s,
     concat_strings (snd <$> maximal_runs s) = s
     ∧ runs_maximal (maximal_runs s)
     ∧ cleanConfigName s = concat_strings (dash_for_run <$> maximal_runs s))
  ∧ (∀ s, cleanConfigName (cleanConfigName s) = cleanConfigName s)
  ∧ cleanConfigName "a b_c!d" = "a-b-c-d".
Proof.
  split; [|split].
  - intros s. split; [apply maximal_runs_concat|].
    split; [apply maximal_runs_maximal|apply cleanConfigName_refines_spec].
  - intros s. apply replace_runs_idempotent.
  - reflexivity.
Qed.

(** ** The constructor *)

(** C10.  A configuration object whose [limit] is 0, absent or falsy in any
    other way yields an entry with limit 1, under either constructor; two
    admissions for such an entry then accept the first identifier and refuse
    the second. *)
Theorem falsy_limit_is_one (conf : Conf) (e : ConfigEntry) :
  truthy (conf_limit conf) = false →
  e = new_ConfigEntry conf ∨ e = Flat.new_ConfigEntry conf →
  limit e = JsNum 1
  ∧ ∀ StringToNumber raw id1 id2,
      conf_name conf = JsStr raw →
      runCalls StringToNumber [Track e id1; Track e id2] ∅
      = inr ([true; false], {[ cleanConfigName raw := [id1] ]}).
Proof.
  intros Hfalsy He.
  assert (Hlimit : limit e = JsNum 1).
  { destruct He as [-> | ->]; unfold limit; simpl;
      unfold js_or; by rewrite Hfalsy. }
  split; [done|].
  intros stn raw id1 id2 Hraw.
  assert (Hname : name e = inr (cleanConfigName raw)).
  { destruct He as [-> | ->]; unfold name; simpl; by rewrite Hraw. }
  simpl. unfold tryTrackNewRunningInstance.
  rewrite Hname. simpl. rewrite lookup_empty. simpl.
  rewrite lookup_insert_eq.
  unfold length_ge. rewrite Hlimit. simpl. by rewrite insert_empty.
Qed.

Lemma falsy_limit_is_one_witness :
  limit (Flat.new_ConfigEntry conf_limit_zero) = JsNum 1
  ∧ runCalls (λ _, None)
      [Track (Flat.new_ConfigEntry conf_limit_zero) "a";
       Track (Flat.new_ConfigEntry conf_limit_zero) "b"] ∅
    = inr ([true; false], {[ "nightly-build" := ["a"] ]}).
Proof.
  destruct (falsy_limit_is_one conf_limit_zero
              (Flat.new_ConfigEntry conf_limit_zero) eq_refl
              (or_intror eq_refl)) as [Hl Hr].
  split; [exact Hl|].
  exact (Hr (λ _, None) "nightly build" "a" "b" eq_refl).
Defined.

(** ** The tracker *)

Lemma bind_inr {A B} (a : A) (k : A → Js B) : (inr a ≫= k) = k a.
Proof. done. Qed.

Lemma bucket_lookup (m : RunningMap) (n : string) (l : list string) :
  m !! n = Some l → bucket m n = l.
Proof. unfold bucket. by intros ->. Qed.

Lemma bucket_insert_eq (m : RunningMap) (n : string) (l : list string) :
  bucket (<[n := l]> m) n = l.
Proof. unfold bucket. by rewrite lookup_insert_eq. Qed.

Lemma bucket_insert_ne (m : RunningMap) (n n' : string) (l : list string) :
  n ≠ n' → bucket (<[n := l]> m) n' = bucket m n'.
Proof. intros Hne. unfold bucket. by rewrite lookup_insert_ne. Qed.

Section TrackerFacts.

Variable StringToNumber : string → option Num.

Lemma length_ge_num (len : nat) (L : Z) :
  length_ge StringToNumber len (JsNum L) = (L <=? Z.of_nat len)%Z.
Proof. done. Qed.

(** Admission, when the bucket has room. *)
Lemma tryTrack_room e n L m instanceName :
  name e = inr n → limit e = JsNum L → (1 ≤ L)%Z →
  (Z.of_nat (length (bucket m n)) < L)%Z →
  tryTrackNewRunningInstance StringToNumber e instanceName m
  = inr (true, <[n := (bucket m n ++ [instanceName])%list]> m).
Proof.
  intros Hn Hl HL Hroom.
  unfold tryTrackNewRunningInstance. rewrite Hn, bind_inr.
  unfold bucket in *. destruct (m !! n) as [l|] eqn:Hm; simpl in *; [|done].
  rewrite Hl, length_ge_num.
  destruct (Z.leb_spec L (Z.of_nat (length l))); [lia|done].
Qed.

(** Refusal, when the bucket is full. *)
Lemma tryTrack_full e n L m instanceName :
  name e = inr n → limit e = JsNum L → (1 ≤ L)%Z →
  (L ≤ Z.of_nat (length (bucket m n)))%Z →
  tryTrackNewRunningInstance StringToNumber e instanceName m = inr (false, m).
Proof.
  intros Hn Hl HL Hfull.
  unfold tryTrackNewRunningInstance. rewrite Hn, bind_inr.
  unfold bucket in *. destruct (m !! n) as [l|] eqn:Hm; simpl in *; [|lia].
  rewrite Hl, length_ge_num.
  destruct (Z.leb_spec L (Z.of_nat (length l))); [done|lia].
Qed.

(** What a release leaves in the bucket it touches. *)
Lemma untrack_bucket e n m instanceName :
  name e = inr n →
  ∃ m', untrackRunningInstance e instanceName m = inr m'
        ∧ bucket m' n
          = splice (indexOf (bucket m n) instanceName) (bucket m n)
        ∧ ∀ n', n' ≠ n → m' !! n' = m !! n'.
Proof.
  intros Hn. unfold untrackRunningInstance. rewrite Hn, bind_inr.
  unfold bucket. destruct (m !! n) as [l|] eqn:Hm; simpl.
  - destruct l as [|x l]; simpl.
    + exists m. by rewrite Hm.
    + eexists. split; [done|]. rewrite lookup_insert_eq. split; [done|].
      intros n' Hne. by rewrite lookup_insert_ne.
  - exists m. by rewrite Hm.
Qed.

Lemma splice_length {A} (start : Z) (l : list A) :
  (length (splice start l) ≤ length l)%nat.
Proof. unfold splice. rewrite length_take. lia. Qed.

Lemma indexOf_absent (l : list string) (x : string) :
  x ∉ l → indexOf l x = (-1)%Z.
Proof.
  induction l as [|y l IH]; [done|].
  intros Hx. apply not_elem_of_cons in Hx as [Hne Hx].
  simpl. destruct (decide (y = x)); [congruence|].
  by rewrite (IH Hx).
Qed.

Lemma indexOf_present (l : list string) (x : string) :
  x ∈ l →
  ∃ i, indexOf l x = Z.of_nat i ∧ l !! i = Some x ∧ x ∉ take i l.
Proof.
  induction l as [|y l IH]; [by intros ?%elem_of_nil|].
  intros Hx. simpl. destruct (decide (y = x)) as [->|Hne].
  - exists 0%nat. split; [done|]. split; [done|]. simpl. apply not_elem_of_nil.
  - apply elem_of_cons in Hx as [?|Hx]; [congruence|].
    destruct (IH Hx) as (i & Hi & Hlook & Hbefore).
    exists (S i). rewrite Hi.
    destruct (Z.ltb_spec (Z.of_nat i) 0); [lia|].
    split; [lia|]. split; [done|].
    simpl. apply not_elem_of_cons. split; [congruence|done].
Qed.

(** Releasing a tracked identifier drops it and everything admitted after
    its first occurrence. *)
Lemma splice_indexOf_present (l : list string) (x : string) :
  x ∈ l →
  ∃ i, l !! i = Some x ∧ (x ∉ take i l)
       ∧ splice (indexOf l x) l = take i l.
Proof.
  intros Hx. destruct (indexOf_present l x Hx) as (i & Hi & Hlook & Hb).
  exists i. split; [done|]. split; [done|].
  unfold splice. rewrite Hi.
  destruct (Z.ltb_spec (Z.of_nat i) 0); [lia|].
  apply lookup_lt_Some in Hlook.
  f_equal. lia.
Qed.

(** Releasing an identifier that is not tracked drops the last one. *)
Lemma splice_indexOf_absent (l : list string) (x : string) :
  x ∉ l → splice (indexOf l x) l = take (length l - 1) l.
Proof.
  intros Hx. unfold splice. rewrite (indexOf_absent l x Hx). simpl.
  f_equal. lia.
Qed.

End TrackerFacts.

(** C1.  For an entry with a name and a limit L of at least 1: an admission
    succeeds and appends the identifier to the bucket of the entry's name
    (creating the bucket when there is none) when the bucket holds fewer than
    L identifiers; it fails and leaves the map as it is when the bucket holds
    L or more.  With L = 2 and an empty bucket, of three admissions the first
    two succeed and the third fails, and after the release of either admitted
    identifier a fourth succeeds. *)
Theorem tryTrack_up_to_limit
    (StringToNumber : string → option Num)
    (e : ConfigEntry) (n : string) (L : Z) :
  name e = inr n → limit e = JsNum L → (1 ≤ L)%Z →
  (∀ m instanceName,
     (Z.of_nat (length (bucket m n)) < L)%Z →
     tryTrackNewRunningInstance StringToNumber e instanceName m
     = inr (true, <[n := (bucket m n ++ [instanceName])%list]> m)
     ∧ (m !! n = None →
        tryTrackNewRunningInstance StringToNumber e instanceName m
        = inr (true, <[n := [instanceName]]> m)))
  ∧ (∀ m instanceName,
       (L ≤ Z.of_nat (length (bucket m n)))%Z →
       tryTrackNewRunningInstance StringToNumber e instanceName m
       = inr (false, m))
  ∧ (L = 2%Z →
     ∀ m i1 i2 i3 i4 released,
       bucket m n = [] → released ∈ [i1; i2] →
       ∃ m',
         runCalls StringToNumber
           [Track e i1; Track e i2; Track e i3; Untrack e released;
            Track e i4] m
         = inr ([true; true; false; true], m')).
Proof.
  intros Hn Hl HL. split; [|split].
  - intros m instanceName Hroom.
    pose proof (tryTrack_room StringToNumber e n L m instanceName
                  Hn Hl HL Hroom) as Htrack.
    split; [done|]. intros Hnone. rewrite Htrack.
    unfold bucket. by rewrite Hnone.
  - intros m instanceName. by apply tryTrack_full.
  - intros -> m i1 i2 i3 i4 released Hempty Hrel.
    cbn [runCalls].
    rewrite (tryTrack_room StringToNumber e n 2 m i1 Hn Hl HL)
      by (rewrite Hempty; simpl; lia).
    rewrite bind_inr. cbn [fst snd]. rewrite Hempty. cbn [app].
    set (m1 := <[n := [i1]]> m).
    rewrite (tryTrack_room StringToNumber e n 2 m1 i2 Hn Hl HL)
      by (unfold m1; rewrite bucket_insert_eq; simpl; lia).
    rewrite bind_inr. cbn [fst snd].
    unfold m1 at 1. rewrite bucket_insert_eq. cbn [app].
    set (m2 := <[n := [i1; i2]]> m1).
    rewrite (tryTrack_full StringToNumber e n 2 m2 i3 Hn Hl HL)
      by (unfold m2; rewrite bucket_insert_eq; simpl; lia).
    rewrite bind_inr. cbn [fst snd].
    destruct (untrack_bucket e n m2 released Hn) as (m3 & Hm3 & Hb3 & _).
    rewrite Hm3, bind_inr.
    assert (Hshort : (Z.of_nat (length (bucket m3 n)) < 2)%Z).
    { rewrite Hb3. unfold m2. rewrite bucket_insert_eq.
      apply elem_of_cons in Hrel as [->|Hrel].
      - simpl. destruct (decide (i1 = i1)); [|done]. simpl. lia.
      - apply list_elem_of_singleton in Hrel as ->.
        simpl. destruct (decide (i1 = i2)); simpl; [lia|].
        destruct (decide (i2 = i2)); [|done]. simpl. lia. }
    rewrite (tryTrack_room StringToNumber e n 2 m3 i4 Hn Hl HL Hshort).
    rewrite bind_inr. cbn [fst snd]. simpl. eauto.
Qed.

Lemma tryTrack_up_to_limit_witness :
  ∃ m',
    runCalls (λ _, None)
      [Track entry_limit_two "svc_1"; Track entry_limit_two "svc_2";
       Track entry_limit_two "svc_3"; Untrack entry_limit_two "svc_2";
       Track entry_limit_two "svc_4"] ∅
    = inr ([true; true; false; true], m').
Proof.
  refine (proj2 (proj2 (tryTrack_up_to_limit (λ _, None)
            entry_limit_two "svc" 2 eq_refl eq_refl _)) eq_refl
            ∅ "svc_1" "svc_2" "svc_3" "svc_4" "svc_2" eq_refl _).
  - lia.
  - apply elem_of_cons. right. apply elem_of_cons. by left.
Defined.

(** *** The limit is an invariant of the tracker *)

Lemma mapJs_names_elem (config : list ConfigEntry) (names : list string)
    (e : ConfigEntry) (n : string) :
  mapJs name config = inr names → e ∈ config → name e = inr n → n ∈ names.
Proof.
  revert names. induction config as [|x config IH]; intros names Hmap He Hn.
  - by apply elem_of_nil in He.
  - simpl in Hmap. destruct (name x) as [|nx] eqn:Hx; [done|].
    rewrite bind_inr in Hmap.
    destruct (mapJs name config) as [|ns] eqn:Hns; [done|].
    rewrite bind_inr in Hmap. injection Hmap as <-.
    apply elem_of_cons in He as [->|He].
    + rewrite Hx in Hn. injection Hn as ->. apply elem_of_cons. by left.
    + apply elem_of_cons. right. by apply IH.
Qed.

(** With distinct names, a name belongs to one entry. *)
Lemma names_distinct_entry (config : list ConfigEntry)
    (e1 e2 : ConfigEntry) (n : string) :
  names_distinct config → e1 ∈ config → e2 ∈ config →
  name e1 = inr n → name e2 = inr n → e1 = e2.
Proof.
  intros (names & Hmap & Hnodup). revert names Hmap Hnodup.
  induction config as [|x config IH]; intros names Hmap Hnodup H1 H2 Hn1 Hn2.
  - by apply elem_of_nil in H1.
  - simpl in Hmap. destruct (name x) as [|nx] eqn:Hx; [done|].
    rewrite bind_inr in Hmap.
    destruct (mapJs name config) as [|ns] eqn:Hns; [done|].
    rewrite bind_inr in Hmap. injection Hmap as <-.
    apply NoDup_cons in Hnodup as [Hfresh Hnodup].
    apply elem_of_cons in H1 as [->|H1]; apply elem_of_cons in H2 as [->|H2].
    + done.
    + exfalso. apply Hfresh. rewrite Hx in Hn1. injection Hn1 as ->.
      by apply (mapJs_names_elem config ns e2 n).
    + exfalso. apply Hfresh. rewrite Hx in Hn2. injection Hn2 as ->.
      by apply (mapJs_names_elem config ns e1 n).
    + by apply (IH ns).
Qed.

(** C2, as the code has it.  When the entries of the configuration have
    distinct names and limits that are integers of at least 1, every tracker
    state reached from the empty map by admissions and releases for these
    entries holds, under the name of each entry, no more identifiers than
    the entry's limit. *)
Theorem reachable_within_limits
    (StringToNumber : string → option Num)
    (config : list ConfigEntry) (m : RunningMap) :
  names_distinct config →
  (∀ e, e ∈ config → ∃ L, limit e = JsNum L ∧ (1 ≤ L)%Z) →
  reachable StringToNumber config m →
  ∀ e n L,
    e ∈ config → name e = inr n → limit e = JsNum L →
    (Z.of_nat (length (bucket m n)) ≤ L)%Z.
Proof.
  intros Hdistinct Hlimits Hreach.
  induction Hreach as [|m e' instanceName r Hreach IH He' Hstep
                       |m e' instanceName m' Hreach IH He' Hstep];
    intros e n L He Hn Hl.
  - destruct (Hlimits e He) as (L' & HL' & Hpos).
    rewrite Hl in HL'. injection HL' as <-.
    unfold bucket. rewrite lookup_empty. simpl. lia.
  - unfold tryTrackNewRunningInstance in Hstep.
    destruct (name e') as [|n'] eqn:Hn'; [done|].
    rewrite bind_inr in Hstep.
    destruct (decide (n' = n)) as [->|Hne].
    + assert (e' = e) as -> by by apply (names_distinct_entry config _ _ n).
      destruct (Hlimits e He) as (L' & HL' & Hpos).
      rewrite Hl in HL'. injection HL' as <-.
      destruct (m !! n) as [l|] eqn:Hm.
      * rewrite Hl, length_ge_num in Hstep.
        destruct (Z.leb_spec L (Z.of_nat (length l)));
          injection Hstep as <-; simpl.
        -- by apply (IH e n L).
        -- rewrite bucket_insert_eq, length_app. simpl. lia.
      * injection Hstep as <-. simpl. rewrite bucket_insert_eq. simpl. lia.
    + destruct (m !! n') as [l|] eqn:Hm.
      * destruct (length_ge StringToNumber (length l) (limit e'));
          injection Hstep as <-; simpl.
        -- by apply (IH e n L).
        -- rewrite bucket_insert_ne by done. by apply (IH e n L).
      * injection Hstep as <-. simpl.
        rewrite bucket_insert_ne by done. by apply (IH e n L).
  - destruct (name e') as [|n'] eqn:Hn'.
    { unfold untrackRunningInstance in Hstep. by rewrite Hn' in Hstep. }
    destruct (untrack_bucket e' n' m instanceName Hn')
      as (m'' & Hm'' & Hb & Hother).
    rewrite Hstep in Hm''. injection Hm'' as <-.
    destruct (decide (n = n')) as [->|Hne].
    + rewrite Hb.
      pose proof (splice_length
                    (indexOf (bucket m n') instanceName) (bucket m n')).
      specialize (IH e n' L He Hn Hl). lia.
    + unfold bucket. rewrite (Hother n Hne). by apply (IH e n L).
Qed.

Lemma reachable_within_limits_witness :
  (Z.of_nat (length (bucket {[ "svc" := ["svc_1"] ]} "svc")) ≤ 2)%Z.
Proof.
  refine (reachable_within_limits (λ _, None) [entry_limit_two]
            {[ "svc" := ["svc_1"] ]} _ _ _
            entry_limit_two "svc" 2 _ eq_refl eq_refl).
  - exists ["svc"]. split; [reflexivity|].
    apply NoDup_cons. split; [apply not_elem_of_nil|apply NoDup_nil_2].
  - intros e He. apply list_elem_of_singleton in He as ->.
    exists 2%Z. split; [reflexivity|lia].
  - refine (reach_track (λ _, None) [entry_limit_two] ∅ entry_limit_two
              "svc_1" (true, {[ "svc" := ["svc_1"] ]})
              (reach_start _ _) _ eq_refl).
    apply elem_of_cons. by left.
  - apply elem_of_cons. by left.
Defined.

(** The comparison of [length_ge] is the comparison of the values: for a
    finite limit of value [q], the test [length >= limit] holds exactly when
    [q] is at most the length. *)
Lemma frac_value_range (bits : positive) :
  (0 < frac_value bits)%Q ∧ (frac_value bits < 1)%Q.
Proof.
  induction bits as [p [IH0 IH1]|p [IH0 IH1]|]; simpl; split; lra.
Qed.

Lemma length_ge_value (StringToNumber : string → option Num)
    (len : nat) (v : JsVal) (x : Num) (q : Q) :
  ToNumber StringToNumber v = Some x → Num_value x = Some q →
  length_ge StringToNumber len v = true
  ↔ (q <= inject_Z (Z.of_nat len))%Q.
Proof.
  intros Hx Hq. unfold length_ge. rewrite Hx.
  destruct x as [n|fl bits|negative]; simpl in Hq; [| |done];
    injection Hq as <-.
  - by rewrite Z.leb_le, Zle_Qle.
  - rewrite Z.ltb_lt. destruct (frac_value_range bits) as [H0 H1].
    split.
    + intros Hlt. assert (Hle : (fl + 1 ≤ Z.of_nat len)%Z) by lia.
      rewrite Zle_Qle, inject_Z_plus in Hle.
      change (inject_Z 1) with 1%Q in Hle. lra.
    + intros Hle. rewrite Zlt_Qlt. lra.
Qed.

(** C2, as stated, fails: an entry may have the limit 1.5, which is at least
    1; the first admission creates the bucket, the second finds one
    identifier, and 1 >= 1.5 is false, so that two identifiers are tracked
    under a limit of 1.5. *)
Lemma reachable_exceeds_fractional_limit :
  limit entry_limit_frac = JsNumber (NumFrac 1 xH)
  ∧ Num_value (NumFrac 1 xH) = Some (3 # 2)
  ∧ (1 <= 3 # 2)%Q
  ∧ names_distinct [entry_limit_frac]
  ∧ reachable (λ _, None) [entry_limit_frac]
      {[ "svc" := ["svc_1"; "svc_2"] ]}
  ∧ (3 # 2 < inject_Z (Z.of_nat
                         (length (bucket {[ "svc" := ["svc_1"; "svc_2"] ]}
                                    "svc"))))%Q.
Proof.
  split; [reflexivity|]. split; [reflexivity|]. split; [by compute|].
  split; [|split; [|by compute]].
  - exists ["svc"]. split; [reflexivity|].
    apply NoDup_cons. split; [apply not_elem_of_nil|apply NoDup_nil_2].
  - assert (Hin : entry_limit_frac ∈ [entry_limit_frac])
      by (apply elem_of_cons; by left).
    refine (reach_track (λ _, None) [entry_limit_frac]
              {[ "svc" := ["svc_1"] ]} entry_limit_frac "svc_2"
              (true, {[ "svc" := ["svc_1"; "svc_2"] ]}) _ Hin _).
    + refine (reach_track (λ _, None) [entry_limit_frac] ∅
                entry_limit_frac "svc_1" (true, {[ "svc" := ["svc_1"] ]})
                (reach_start _ _) Hin _).
      vm_compute. reflexivity.
    + vm_compute. reflexivity.
Qed.

(** *** Releases *)

(** A release of a tracked identifier keeps what was admitted before its
    first occurrence and nothing else of the bucket; other buckets stay. *)
Lemma untrack_present e n m instanceName :
  name e = inr n → instanceName ∈ bucket m n →
  ∃ m' i,
    untrackRunningInstance e instanceName m = inr m'
    ∧ bucket m n !! i = Some instanceName
    ∧ bucket m' n = take i (bucket m n)
    ∧ ∀ n', n' ≠ n → bucket m' n' = bucket m n'.
Proof.
  intros Hn Hin.
  destruct (untrack_bucket e n m instanceName Hn) as (m' & Hm' & Hb & Ho).
  destruct (splice_indexOf_present _ _ Hin) as (i & Hi & _ & Hsplice).
  exists m', i. split; [done|]. split; [done|].
  split; [by rewrite Hb|].
  intros n' Hne. unfold bucket. by rewrite Ho.
Qed.

(** A release of an identifier that is not tracked removes the identifier
    admitted last. *)
Lemma untrack_absent e n m instanceName :
  name e = inr n → instanceName ∉ bucket m n →
  ∃ m',
    untrackRunningInstance e instanceName m = inr m'
    ∧ bucket m' n = take (length (bucket m n) - 1) (bucket m n)
    ∧ ∀ n', n' ≠ n → bucket m' n' = bucket m n'.
Proof.
  intros Hn Hin.
  destruct (untrack_bucket e n m instanceName Hn) as (m' & Hm' & Hb & Ho).
  exists m'. split; [done|].
  split; [by rewrite Hb, splice_indexOf_absent|].
  intros n' Hne. unfold bucket. by rewrite Ho.
Qed.

(** C3.  Two identifiers are admitted under a limit of 2 and the first is
    released: the second, which nobody released, is gone from the tracker as
    well. *)
Theorem untrack_removes_later_identifiers :
  runCalls (λ _, None)
    [Track entry_limit_two "svc_1"; Track entry_limit_two "svc_2";
     Untrack entry_limit_two "svc_1"] ∅
  = inr ([true; true], {[ "svc" := [] ]})
  ∧ untrackRunningInstance entry_limit_two "svc_1"
      {[ "svc" := ["svc_1"; "svc_2"] ]}
    = inr {[ "svc" := [] ]}.
Proof. split; reflexivity. Qed.

(** C4.  One identifier is admitted and an identifier that was never
    admitted is released: no exception is raised, but the admitted identifier
    is removed. *)
Theorem untrack_unknown_removes_last :
  runCalls (λ _, None)
    [Track entry_limit_two "svc_1"; Untrack entry_limit_two "svc_9"] ∅
  = inr ([true], {[ "svc" := [] ]})
  ∧ untrackRunningInstance entry_limit_two "svc_9" {[ "svc" := ["svc_1"] ]}
    = inr {[ "svc" := [] ]}.
Proof. split; reflexivity. Qed.

(** ** Validation *)

Lemma remove_dups_length_le `{EqDecision A} (l : list A) :
  (length (remove_dups l) ≤ length l)%nat.
Proof.
  induction l as [|x l IH]; simpl; [done|].
  destruct (decide_rel elem_of x l); simpl; lia.
Qed.

Lemma has_duplicates_false `{EqDecision A} (l : list A) :
  has_duplicates l = false ↔ NoDup l.
Proof.
  unfold has_duplicates. rewrite Bool.negb_false_iff, Nat.eqb_eq.
  induction l as [|x l IH]; simpl.
  - split; [intros _; apply NoDup_nil_2|done].
  - pose proof (remove_dups_length_le l).
    rewrite NoDup_cons. destruct (decide_rel elem_of x l); simpl.
    + split; [lia|]. by intros [].
    + split.
      * intros Hlen. split; [done|]. apply IH. lia.
      * intros [_ Hnd]. apply IH in Hnd. lia.
Qed.

Lemma has_duplicates_true `{EqDecision A} (l : list A) :
  has_duplicates l = true ↔ ¬ NoDup l.
Proof.
  rewrite <- has_duplicates_false. destruct (has_duplicates l); naive_solver.
Qed.

Lemma NoDup_lookup_ne {A} (l : list A) (i j : nat) (x : A) :
  i ≠ j → l !! i = Some x → l !! j = Some x → ¬ NoDup l.
Proof.
  intros Hij Hi Hj Hnd. apply Hij. by eapply NoDup_lookup.
Qed.

Lemma replace_runs_empty (s : string) :
  replace_runs false s = "" → s = "".
Proof.
  destruct s as [|c r]; [done|]. simpl. by destruct (in_class c).
Qed.

Lemma check_entry_incomplete (e : ConfigEntry) :
  complete e = false → throws (check_entry e) = true.
Proof.
  unfold complete, check_entry, name. intros Hc.
  destruct (_name e) as [| |b|z|raw] eqn:Hraw; try done.
  change (mret (cleanConfigName raw) : Js string)
    with (inr (cleanConfigName raw) : Js string).
  rewrite bind_inr.
  destruct (String.eqb (cleanConfigName raw) "") eqn:Hempty; [done|].
  destruct (truthy (key e)); simpl; [|done].
  destruct (truthy (image e)); simpl; [|done].
  rewrite !Bool.andb_true_r in Hc. unfold truthy in Hc.
  apply Bool.negb_false_iff, String.eqb_eq in Hc. subst raw. done.
Qed.

Lemma check_entry_well_formed (e : ConfigEntry) :
  well_formed e → check_entry e = inr tt.
Proof.
  intros [(raw & Hraw & Hne) [Hk Hi]].
  unfold check_entry, name. rewrite Hraw.
  change (mret (cleanConfigName raw) : Js string)
    with (inr (cleanConfigName raw) : Js string).
  rewrite bind_inr.
  destruct (String.eqb (cleanConfigName raw) "") eqn:Hempty.
  - apply String.eqb_eq, replace_runs_empty in Hempty. done.
  - by rewrite Hk, Hi.
Qed.

Lemma forEach_throws {A} (f : A → Js unit) (l : list A) (x : A) :
  x ∈ l → throws (f x) = true → throws (forEach f l) = true.
Proof.
  induction l as [|y l IH]; intros Hx Hf; [by apply elem_of_nil in Hx|].
  simpl. apply elem_of_cons in Hx as [->|Hx].
  - by destruct (f y).
  - destruct (f y) as [|[]]; [done|]. rewrite bind_inr. by apply IH.
Qed.

Lemma forEach_ok {A} (f : A → Js unit) (l : list A) :
  Forall (λ x, f x = inr tt) l → forEach f l = inr tt.
Proof.
  induction 1 as [|x l Hx _ IH]; [done|].
  simpl. by rewrite Hx, bind_inr.
Qed.

Lemma mapJs_lookup {A B} (f : A → Js B) (l : list A) (ys : list B)
    (i : nat) (x : A) :
  mapJs f l = inr ys → l !! i = Some x →
  ∃ y, f x = inr y ∧ ys !! i = Some y.
Proof.
  revert ys i. induction l as [|a l IH]; intros ys i Hmap Hi; [done|].
  simpl in Hmap. destruct (f a) as [|b] eqn:Hfa; [done|].
  rewrite bind_inr in Hmap.
  destruct (mapJs f l) as [|bs] eqn:Hbs; [done|].
  rewrite bind_inr in Hmap. injection Hmap as <-.
  destruct i as [|i]; simpl in *.
  - injection Hi as <-. eauto.
  - by apply IH.
Qed.

Lemma duplicate_names_detected (config : list ConfigEntry)
    (names : list string) (i j : nat) (e1 e2 : ConfigEntry) :
  i ≠ j → config !! i = Some e1 → config !! j = Some e2 →
  name e1 = name e2 → mapJs name config = inr names →
  has_duplicates names = true.
Proof.
  intros Hij H1 H2 Hsame Hmap.
  destruct (mapJs_lookup _ _ _ _ _ Hmap H1) as (n1 & Hn1 & Hl1).
  destruct (mapJs_lookup _ _ _ _ _ Hmap H2) as (n2 & Hn2 & Hl2).
  rewrite Hsame, Hn2 in Hn1. injection Hn1 as <-.
  apply has_duplicates_true. by apply (NoDup_lookup_ne names i j n2).
Qed.

Lemma duplicate_keys_detected (config : list ConfigEntry) (i j : nat)
    (e1 e2 : ConfigEntry) :
  i ≠ j → config !! i = Some e1 → config !! j = Some e2 →
  key e1 = key e2 → has_duplicates (key <$> config) = true.
Proof.
  intros Hij H1 H2 Hsame. apply has_duplicates_true.
  apply (NoDup_lookup_ne _ i j (key e1)); [done| |].
  - by rewrite list_lookup_fmap, H1.
  - by rewrite list_lookup_fmap, H2, Hsame.
Qed.

Lemma well_formed_checks (config : list ConfigEntry) :
  Forall well_formed config → forEach check_entry config = inr tt.
Proof.
  intros Hwf. apply forEach_ok.
  eapply Forall_impl; [exact Hwf|]. apply check_entry_well_formed.
Qed.

(** What [src/app.js] checks: it refuses incomplete entries and repeated
    names, accepts well-formed entries with distinct names, and never looks
    at the keys of different entries together. *)
Lemma Flat_tryValidateConfig_checks (config : list ConfigEntry) :
  (∀ e, e ∈ config → complete e = false →
        throws (Flat.tryValidateConfig config) = true)
  ∧ (∀ i j e1 e2, i ≠ j → config !! i = Some e1 → config !! j = Some e2 →
       name e1 = name e2 → throws (Flat.tryValidateConfig config) = true)
  ∧ (Forall well_formed config → names_distinct config →
     Flat.tryValidateConfig config = inr tt).
Proof.
  unfold Flat.tryValidateConfig. split; [|split].
  - intros e He Hc.
    pose proof (forEach_throws check_entry config e He
                  (check_entry_incomplete e Hc)) as Hthrow.
    by destruct (forEach check_entry config).
  - intros i j e1 e2 Hij H1 H2 Hsame.
    destruct (forEach check_entry config) as [|[]]; [done|].
    rewrite bind_inr.
    destruct (mapJs name config) as [|names] eqn:Hmap; [done|].
    rewrite bind_inr.
    by rewrite (duplicate_names_detected config names i j e1 e2).
  - intros Hwf (names & Hmap & Hnd).
    rewrite (well_formed_checks config Hwf), bind_inr, Hmap, bind_inr.
    apply has_duplicates_false in Hnd. by rewrite Hnd.
Qed.

(** The file-based variant does all the specification asks of validation:
    it refuses incomplete entries, repeated names and repeated keys, and
    accepts well-formed entries with distinct names and distinct keys. *)
Lemma Nested_tryValidateConfig_checks (config : list ConfigEntry) :
  (∀ e, e ∈ config → complete e = false →
        throws (Nested.tryValidateConfig config) = true)
  ∧ (∀ i j e1 e2, i ≠ j → config !! i = Some e1 → config !! j = Some e2 →
       name e1 = name e2 ∨ key e1 = key e2 →
       throws (Nested.tryValidateConfig config) = true)
  ∧ (Forall well_formed config → names_distinct config →
     NoDup (key <$> config) →
     Nested.tryValidateConfig config = inr tt).
Proof.
  unfold Nested.tryValidateConfig. split; [|split].
  - intros e He Hc.
    pose proof (forEach_throws check_entry config e He
                  (check_entry_incomplete e Hc)) as Hthrow.
    by destruct (forEach check_entry config).
  - intros i j e1 e2 Hij H1 H2 Hsame.
    destruct (forEach check_entry config) as [|[]]; [done|].
    rewrite bind_inr.
    destruct (mapJs name config) as [|names] eqn:Hmap; [done|].
    rewrite bind_inr.
    destruct (has_duplicates names) eqn:Hnames; [done|].
    destruct Hsame as [Hsame|Hsame].
    + by rewrite (duplicate_names_detected config names i j e1 e2) in Hnames.
    + by rewrite (duplicate_keys_detected config i j e1 e2).
  - intros Hwf (names & Hmap & Hnd) Hkeys.
    rewrite (well_formed_checks config Hwf), bind_inr, Hmap, bind_inr.
    apply has_duplicates_false in Hnd, Hkeys. by rewrite Hnd, Hkeys.
Qed.

(** A configuration either validator accepts has distinct names. *)
Lemma Flat_validated_names_distinct (config : list ConfigEntry) :
  Flat.tryValidateConfig config = inr tt → names_distinct config.
Proof.
  unfold Flat.tryValidateConfig, names_distinct.
  destruct (forEach check_entry config) as [|[]]; [done|].
  rewrite bind_inr.
  destruct (mapJs name config) as [|names]; [done|]. rewrite bind_inr.
  destruct (has_duplicates names) eqn:Hnames; [done|].
  intros _. exists names. split; [done|]. by apply has_duplicates_false.
Qed.

Lemma Nested_validated_names_distinct (config : list ConfigEntry) :
  Nested.tryValidateConfig config = inr tt → names_distinct config.
Proof.
  unfold Nested.tryValidateConfig, names_distinct.
  destruct (forEach check_entry config) as [|[]]; [done|].
  rewrite bind_inr.
  destruct (mapJs name config) as [|names]; [done|]. rewrite bind_inr.
  destruct (has_duplicates names) eqn:Hnames; [done|].
  intros _. exists names. split; [done|]. by apply has_duplicates_false.
Qed.

(** C7.  Two complete entries with different names and the same key pass the
    validation of [src/app.js]; the validation of the file-based variant
    refuses the same list, naming the keys. *)
Theorem Flat_tryValidateConfig_accepts_repeated_key :
  Flat.tryValidateConfig [entry_svc_a; entry_svc_b] = inr tt
  ∧ key entry_svc_a = key entry_svc_b
  ∧ Nested.tryValidateConfig [entry_svc_a; entry_svc_b]
    = inl (ThrowStr "Configuration entry keys must be unique.").
Proof. repeat split; reflexivity. Qed.

(** ** Query parameters *)

Example decodeURIComponent_plain : decodeURIComponent "bar" = inr "bar".
Proof. reflexivity. Qed.

Example decodeURIComponent_escapes :
  decodeURIComponent "a%20b%2Fc" = inr "a b/c".
Proof. reflexivity. Qed.

Example decodeURIComponent_multibyte :
  decodeURIComponent "%E2%82%AC"
  = inr (String (ascii_of_nat 226)
           (String (ascii_of_nat 130) (String (ascii_of_nat 172) ""))).
Proof. reflexivity. Qed.

Example decodeURIComponent_malformed :
  decodeURIComponent "%" = inl URIError
  ∧ decodeURIComponent "%zz" = inl URIError
  ∧ decodeURIComponent "%E0%A4%A" = inl URIError
  ∧ decodeURIComponent "%C0%80" = inl URIError
  ∧ decodeURIComponent "%ED%A0%80" = inl URIError
  ∧ decodeURIComponent "%80" = inl URIError.
Proof. repeat split; reflexivity. Qed.


Lemma mapJs_first_failure {A B} (f : A → Js B) (l : list A) (t : Thrown) :
  Forall (λ x, ∀ t', f x = inl t' → t' = t) l →
  Exists (λ x, throws (f x) = true) l → mapJs f l = inl t.
Proof.
  intros Honly. induction 1 as [x l Hx|x l _ IH]; simpl;
    apply Forall_cons in Honly as [Hx' Honly].
  - destruct (f x) as [t'|] eqn:Hfx; [|done].
    simpl. f_equal. by apply Hx'.
  - destruct (f x) as [t'|y] eqn:Hfx.
    + simpl. f_equal. by apply Hx'.
    + by rewrite bind_inr, IH.
Qed.

Lemma Decode_only_URIError (s : string) :
  ∀ octets need t, Decode octets need s = inl t → t = URIError.
Proof.
  remember (String.length s) as len eqn:Hlen.
  revert s Hlen. induction len as [len IH] using lt_wf_ind.
  intros s -> octets need t.
  destruct s as [|c r]; simpl; unfold throw.
  - destruct need; [done|]. by intros [= <-].
  - destruct (Ascii.eqb c "%").
    + destruct r as [|h1 [|h2 r']]; try by intros [= <-].
      destruct (ParseHexOctet h1 h2) as [B|]; [|by intros [= <-]].
      assert (IH' : ∀ octets need t,
                 Decode octets need r' = inl t → t = URIError).
      { apply (IH (String.length r')); [simpl; lia|done]. }
      destruct need as [|[|need]].
      * destruct (leading_ones B) as [|[|k]]; [|by intros [= <-]|].
        -- destruct (Decode [] 0 r') as [t'|] eqn:Hd; [|done].
           intros [= <-]. by apply (IH' [] 0%nat).
        -- destruct k as [|[|[|k]]]; try apply IH'. by intros [= <-].
      * destruct (valid_utf8 (octets ++ [B])); [|by intros [= <-]].
        destruct (Decode [] 0 r') as [t'|] eqn:Hd; [|done].
        intros [= <-]. by apply (IH' [] 0%nat).
      * apply IH'.
    + destruct need; [|by intros [= <-]].
      assert (IH' : ∀ octets need t,
                 Decode octets need r = inl t → t = URIError).
      { apply (IH (String.length r)); [simpl; lia|done]. }
      destruct (Decode [] 0 r) as [t'|] eqn:Hd; [|done].
      intros [= <-]. by apply (IH' [] 0%nat).
Qed.

(** The function the extraction maps over the names it keeps. *)
Lemma render_string (query : JsQuery) (k : string) (v : PropValue)
    (text : string) :
  query_get query k = Some v → ToString v = inr text →
  (text' ← match query_get query k with
           | Some v => ToString v
           | None => mret "undefined"
           end;
   decoded ← decodeURIComponent text';
   mret (k ++ "=" ++ decoded))
  = (decoded ← decodeURIComponent text; mret (k ++ "=" ++ decoded) : Js string).
Proof. intros -> Hv. by rewrite Hv. Qed.

(** When every allowlisted property of the query converts to a string, and
    the string of one of them is not a well-formed percent-encoding, the
    extraction throws [URIError]. *)
Lemma extractAllowedQueryParams_malformed (e : ConfigEntry)
    (query : JsQuery) (k : string) (v : PropValue) (text : string) :
  (∀ k' v', k' ∈ queryParamsToEnv e → query_get query k' = Some v' →
            throws (ToString v') = false) →
  k ∈ queryParamsToEnv e → query_get query k = Some v →
  ToString v = inr text → throws (decodeURIComponent text) = true →
  Nested.extractAllowedQueryParams e query = inl URIError.
Proof.
  intros Hconv Hk Hq Hv Hbad. unfold Nested.extractAllowedQueryParams.
  apply mapJs_first_failure.
  - apply Forall_forall. intros k' Hk' t'.
    apply list_elem_of_filter in Hk' as [[v' Hv'] Hk'].
    specialize (Hconv k' v' Hk' Hv'). rewrite Hv'.
    destruct (ToString v') as [|text']; [done|]. rewrite bind_inr.
    destruct (decodeURIComponent text') as [t''|d] eqn:Hd; [|done].
    simpl. intros [= <-]. by apply (Decode_only_URIError _ [] 0%nat) in Hd.
  - apply Exists_exists. exists k. split.
    + apply list_elem_of_filter. split; [by exists v|done].
    + rewrite (render_string query k v text Hq Hv).
      by destruct (decodeURIComponent text).
Qed.

(** A name the query only inherits counts as present: for a plain object
    without own properties and the allowlist toString, the extraction
    returns what the inherited function converts to. *)
Example extractAllowedQueryParams_inherited :
  Nested.extractAllowedQueryParams entry_allow_toString (plain_query ∅)
  = inr ["toString=function toString() { [native code] }"].
Proof. reflexivity. Qed.




(** ** The kick handler *)

(** The handler of [src/app.js] reads the configuration and leaves it as it
    found it. *)
Lemma Flat_kick_config_unchanged (config : list ConfigEntry)
    (req : Request) (uniq : string) :
  (Flat.kick config req uniq).1 = config.
Proof.
  unfold Flat.kick.
  destruct (find_key config (req_key req)) as [[i matched]|]; [|done].
  by destruct (address_refused _ _).
Qed.

Lemma object_spread_name (instanceName : string) (configured : JsObject) :
  object_spread {[ "name" := JString instanceName ]} configured !! "name"
  = Some (default (JString instanceName) (configured !! "name")).
Proof.
  unfold object_spread. rewrite lookup_union.
  destruct (configured !! "name") as [v|]; simpl;
    by rewrite lookup_singleton_eq.
Qed.

(** What the handlers put under [name]: the generated identifier (cleaned
    configuration name, underscore, random suffix) when the configured
    [createOptions] of the matched entry have no [name], and the configured
    [name] when they have one. *)
Lemma kick_name_generated_unless_configured
    (config : list ConfigEntry) (req : Request) (uniq : string)
    (i : nat) (matched : ConfigEntry)
    (pulled : JsVal) (cmdline : list string) (options : JsObject) :
  find_key config (req_key req) = Some (i, matched) →
  (Flat.kick config req uniq).2 = inr (Kicked pulled cmdline options)
  ∨ (Nested.kick config req uniq).2 = inr (Kicked pulled cmdline options) →
  ∃ cleaned,
    name matched = inr cleaned
    ∧ options !! "name"
      = Some (default (JString (cleaned ++ "_" ++ uniq))
                (createOptions matched !! "name")).
Proof.
  intros Hfind [Hkick|Hkick].
  - unfold Flat.kick in Hkick. rewrite Hfind in Hkick.
    destruct (address_refused _ _); [done|]. simpl in Hkick.
    unfold genNewInstanceName in Hkick.
    destruct (name matched) as [|cleaned] eqn:Hname; [done|].
    rewrite !bind_inr in Hkick. injection Hkick as _ _ <-.
    exists cleaned. split; [done|]. apply object_spread_name.
  - unfold Nested.kick in Hkick. rewrite Hfind in Hkick.
    destruct (address_refused _ _); [done|].
    destruct (name matched) as [|cleaned] eqn:Hname; [done|].
    destruct (Nested.extractAllowedQueryParams _ _) as [|vars]; [done|].
    destruct (spread_or_empty _) as [|configured]; [done|].
    simpl in Hkick. unfold genNewInstanceName, name in Hkick.
    simpl in Hkick. fold (name matched) in Hkick. rewrite Hname in Hkick.
    rewrite !bind_inr in Hkick. injection Hkick as _ _ <-.
    exists cleaned. split; [done|].
    rewrite object_spread_name. unfold createOptions. simpl.
    by rewrite lookup_insert_ne.
Qed.

(** C6.  For an entry whose [createOptions] contain a [name], both handlers
    launch with that configured name; the identifier [genNewInstanceName]
    has generated for the launch, "svc_" and the suffix, is not used. *)
Lemma kick_takes_configured_name :
  genNewInstanceName entry_named "0b5c" = inr "svc_0b5c"
  ∧ Flat.kick [entry_named] (request_with ∅) "0b5c"
    = ([entry_named],
       inr (Kicked (JsStr "alpine:3") []
              {[ "name" := JString "fixed" ]}))
  ∧ ∃ options,
      (Nested.kick [entry_named] (request_with ∅) "0b5c").2
      = inr (Kicked (JsStr "alpine:3") [] options)
      ∧ options !! "name" = Some (JString "fixed").
Proof.
  split; [reflexivity|]. split; [reflexivity|].
  eexists. split; [reflexivity|reflexivity].
Qed.

(** The file-based handler, whenever it gets as far as building the launch
    options, stores the merged environment list in the matched entry. *)
Lemma Nested_kick_config (config : list ConfigEntry) (req : Request)
    (uniq : string) (i : nat) (matched : ConfigEntry) (cleaned : string)
    (vars : list string) (configured : list Json) :
  find_key config (req_key req) = Some (i, matched) →
  address_refused (allowFrom matched) (req_clientIp req) = false →
  name matched = inr cleaned →
  Nested.extractAllowedQueryParams matched (req_query req) = inr vars →
  spread_or_empty (createOptions matched !! "env") = inr configured →
  (Nested.kick config req uniq).1
  = <[i := assign_createOptions "env"
             (JArr (configured ++ (JString <$> vars))) matched]> config.
Proof.
  intros Hfind Hallowed Hname Hvars Henv. unfold Nested.kick.
  by rewrite Hfind, Hallowed, Hname, Hvars, Henv.
Qed.

(** C5.  A request with the allowlisted parameter FOO=bar leaves the matched
    entry with the derived string appended to the environment list of its
    [createOptions]; the next request, FOO=baz, is launched with the
    environment of the first request in front of its own. *)
Theorem Nested_kick_writes_createOptions :
  createOptions <$> (Nested.kick [entry_allow_foo]
                       (request_with {[ "FOO" := "bar" ]}) "u1").1
  = [ {[ "env" := JArr [JString "A=1"; JString "FOO=bar"] ]} ]
  ∧ createOptions entry_allow_foo = {[ "env" := JArr [JString "A=1"] ]}
  ∧ (Nested.kick [entry_allow_foo]
       (request_with {[ "FOO" := "bar" ]}) "u1").1 ≠ [entry_allow_foo]
  ∧ ∃ options,
      (Nested.kick
         (Nested.kick [entry_allow_foo]
            (request_with {[ "FOO" := "bar" ]}) "u1").1
         (request_with {[ "FOO" := "baz" ]}) "u2").2
      = inr (Kicked (JsStr "alpine:3") [] options)
      ∧ options !! "env"
        = Some (JArr [JString "A=1"; JString "FOO=bar"; JString "FOO=baz"]).
Proof.
  split; [reflexivity|]. split; [reflexivity|]. split.
  - intros Heq.
    apply (f_equal (λ l, (createOptions <$> l) !! 0%nat ≫= (.!! "env")))
      in Heq.
    vm_compute in Heq. discriminate Heq.
  - eexists. split; reflexivity.
Qed.

(** * Further properties of the code *)

(** ** More on name cleaning *)

Lemma is_alnum_not_dash (c : ascii) : is_alnum c = true → is_dash c = false.
Proof.
  unfold is_dash. destruct (Ascii.eqb_spec c "-") as [->|]; [|done].
  by vm_compute.
Qed.

Lemma replace_runs_alphabet (matching : bool) (s : string) :
  string_forall alnum_or_dash (replace_runs matching s) = true.
Proof.
  revert matching. induction s as [|c r IH]; intros matching; [done|].
  simpl. unfold in_class. destruct (is_alnum c) eqn:Hc; simpl.
  - unfold alnum_or_dash at 1. by rewrite Hc, IH.
  - destruct matching; [apply IH|]. simpl. apply IH.
Qed.

Lemma replace_runs_resumes_on_alnum (s : string) :
  match replace_runs true s with
  | String a _ => is_dash a = false
  | EmptyString => True
  end.
Proof.
  induction s as [|c r IH]; [done|].
  simpl. unfold in_class. destruct (is_alnum c) eqn:Hc; simpl; [|done].
  by apply is_alnum_not_dash.
Qed.

Lemma no_double_dash_cons (a : ascii) (s : string) :
  no_double_dash (String a s)
  = match s with
    | String b _ => negb (is_dash a && is_dash b)
    | EmptyString => true
    end && no_double_dash s.
Proof. by destruct s. Qed.

Lemma replace_runs_no_double_dash (matching : bool) (s : string) :
  no_double_dash (replace_runs matching s) = true.
Proof.
  revert matching. induction s as [|c r IH]; intros matching; [done|].
  cbn [replace_runs]. unfold in_class. destruct (is_alnum c) eqn:Hc;
    cbn [negb].
  - rewrite no_double_dash_cons, IH. apply is_alnum_not_dash in Hc.
    destruct (replace_runs false r); [done|]. by rewrite Hc.
  - destruct matching; [apply IH|].
    rewrite no_double_dash_cons, IH.
    pose proof (replace_runs_resumes_on_alnum r) as Hr.
    destruct (replace_runs true r); [done|]. by rewrite Hr.
Qed.

(** X1.  A cleaned name consists of ASCII letters, digits and dashes only,
    and never has two dashes in a row. *)
Theorem cleanConfigName_alphabet (s : string) :
  string_forall alnum_or_dash (cleanConfigName s) = true
  ∧ no_double_dash (cleanConfigName s) = true.
Proof.
  split; [apply replace_runs_alphabet|apply replace_runs_no_double_dash].
Qed.

Lemma replace_runs_length (matching : bool) (s : string) :
  (String.length (replace_runs matching s) ≤ String.length s)%nat.
Proof.
  revert matching. induction s as [|c r IH]; intros matching; [done|].
  simpl. destruct (in_class c).
  - destruct matching; simpl.
    + specialize (IH true). lia.
    + specialize (IH true). lia.
  - simpl. specialize (IH false). lia.
Qed.

Lemma replace_runs_alnum (matching : bool) (s : string) :
  string_forall is_alnum s = true → replace_runs matching s = s.
Proof.
  revert matching. induction s as [|c r IH]; intros matching; [done|].
  simpl. intros [Hc Hr]%andb_prop. unfold in_class. rewrite Hc. simpl.
  by rewrite IH.
Qed.

(** X2.  Cleaning never lengthens a name, leaves a name made of ASCII
    letters and digits as it is, and gives the empty string for the empty
    name only. *)
Theorem cleanConfigName_length_fixpoint (s : string) :
  (String.length (cleanConfigName s) ≤ String.length s)%nat
  ∧ (string_forall is_alnum s = true → cleanConfigName s = s)
  ∧ (cleanConfigName s = "" ↔ s = "").
Proof.
  split; [apply replace_runs_length|].
  split; [apply replace_runs_alnum|].
  split; [apply replace_runs_empty|by intros ->].
Qed.

Lemma cleanConfigName_length_fixpoint_witness :
  cleanConfigName "build42" = "build42".
Proof.
  exact (proj1 (proj2 (cleanConfigName_length_fixpoint "build42")) eq_refl).
Defined.

Lemma string_app_nil_l (s : string) : "" ++ s = s.
Proof. done. Qed.

Lemma string_app_cons (a : ascii) (s t : string) :
  String a s ++ t = String a (s ++ t).
Proof. done. Qed.

(** A string without underscore in front of an underscore determines where
    it ends. *)
Lemma append_underscore_inj (n1 n2 u1 u2 : string) :
  string_forall alnum_or_dash n1 = true →
  string_forall alnum_or_dash n2 = true →
  n1 ++ "_" ++ u1 = n2 ++ "_" ++ u2 → n1 = n2 ∧ u1 = u2.
Proof.
  revert n2. induction n1 as [|a n1 IH]; intros [|b n2] H1 H2 Heq;
    rewrite ?string_app_cons, ?string_app_nil_l in Heq; simpl in H1, H2.
  - by injection Heq as ->.
  - injection Heq as <- _. apply andb_prop in H2 as [H2 _].
    by vm_compute in H2.
  - injection Heq as -> _. apply andb_prop in H1 as [H1 _].
    by vm_compute in H1.
  - injection Heq as -> Heq.
    apply andb_prop in H1 as [_ H1]. apply andb_prop in H2 as [_ H2].
    destruct (IH n2 H1 H2 Heq) as [-> ->]. done.
Qed.

(** X3.  An instance identifier determines the configuration name and the
    random suffix it was made of: two calls of [genNewInstanceName] that
    return the same identifier were made for entries of the same cleaned
    name and with the same suffix. *)
Theorem genNewInstanceName_injective
    (e1 e2 : ConfigEntry) (uniq1 uniq2 instanceName : string) :
  genNewInstanceName e1 uniq1 = inr instanceName →
  genNewInstanceName e2 uniq2 = inr instanceName →
  name e1 = name e2 ∧ uniq1 = uniq2.
Proof.
  unfold genNewInstanceName, name.
  destruct (_name e1) as [| | | |raw1]; try done.
  destruct (_name e2) as [| | | |raw2]; try done.
  simpl. intros [= <-] [= Heq].
  destruct (append_underscore_inj (cleanConfigName raw2)
              (cleanConfigName raw1) uniq2 uniq1) as [-> ->]; try done;
    apply replace_runs_alphabet.
Qed.

Lemma genNewInstanceName_injective_witness :
  name entry_svc_a = name entry_svc_a ∧ "0b5c" = "0b5c".
Proof.
  exact (genNewInstanceName_injective entry_svc_a entry_svc_a "0b5c" "0b5c"
           "svc-a_0b5c" eq_refl eq_refl).
Defined.

(** ** More on the constructor *)

Lemma existsb_loopback (ip : string) :
  existsb (λ af, String.eqb af ip) ["127.0.0.1"; "::1"] = true
  ↔ ip = "127.0.0.1" ∨ ip = "::1".
Proof.
  cbn [existsb].
  rewrite Bool.orb_false_r, Bool.orb_true_iff, !String.eqb_eq.
  split; (intros [Hip|Hip]; [left|right]; by symmetry).
Qed.

(** X4.  Whatever the configuration object holds, the constructed entry has
    a truthy limit and a truthy allowlist; and when the object's [allowFrom]
    is absent or the empty string, the handler's address test lets exactly
    the two loopback addresses through.  This holds for the constructor of
    either variant. *)
Theorem new_ConfigEntry_defaults (conf : Conf) (e : ConfigEntry) :
  e = new_ConfigEntry conf ∨ e = Flat.new_ConfigEntry conf →
  truthy (limit e) = true
  ∧ allowFrom_truthy (allowFrom e) = true
  ∧ (allowFrom_truthy (conf_allowFrom conf) = false →
     ∀ ip, address_refused (allowFrom e) ip = false
           ↔ ip = "127.0.0.1" ∨ ip = "::1").
Proof.
  intros He.
  assert (Hl : limit e = js_or (conf_limit conf) (JsNum 1))
    by by destruct He as [-> | ->].
  assert (Ha : allowFrom e
               = if allowFrom_truthy (conf_allowFrom conf)
                 then conf_allowFrom conf
                 else AfList ["127.0.0.1"; "::1"])
    by by destruct He as [-> | ->].
  rewrite Hl, Ha. clear He Hl Ha. split; [|split].
  - unfold js_or. by destruct (truthy (conf_limit conf)) eqn:Ht.
  - by destruct (allowFrom_truthy (conf_allowFrom conf)) eqn:Ht.
  - intros -> ip. unfold address_refused.
    rewrite Bool.negb_false_iff. apply existsb_loopback.
Qed.

Lemma new_ConfigEntry_defaults_witness :
  address_refused (allowFrom (new_ConfigEntry conf_limit_zero)) "::1" = false
  ↔ "::1" = "127.0.0.1" ∨ "::1" = "::1".
Proof.
  exact (proj2 (proj2 (new_ConfigEntry_defaults conf_limit_zero
                         (new_ConfigEntry conf_limit_zero)
                         (or_introl eq_refl))) eq_refl "::1").
Defined.

(** ** More on validation *)

Lemma check_entry_ok (e : ConfigEntry) :
  check_entry e = inr tt ↔ well_formed e.
Proof.
  split; [|apply check_entry_well_formed].
  unfold check_entry, name, well_formed.
  destruct (_name e) as [| | | |raw] eqn:Hraw; try done.
  change (mret (cleanConfigName raw) : Js string)
    with (inr (cleanConfigName raw) : Js string).
  rewrite bind_inr.
  destruct (String.eqb (cleanConfigName raw) "") eqn:Hempty; [done|].
  destruct (truthy (key e)); simpl; [|done].
  destruct (truthy (image e)); simpl; [|done].
  intros _. split; [|done]. exists raw. split; [done|].
  intros ->. done.
Qed.

Lemma forEach_ok_iff {A} (f : A → Js unit) (l : list A) :
  forEach f l = inr tt ↔ Forall (λ x, f x = inr tt) l.
Proof.
  split; [|apply forEach_ok].
  induction l as [|x l IH]; simpl; [by constructor|].
  destruct (f x) as [|[]] eqn:Hx; [done|]. rewrite bind_inr.
  intros Hl. constructor; [done|by apply IH].
Qed.

Lemma forEach_check_entry (config : list ConfigEntry) :
  forEach check_entry config = inr tt ↔ Forall well_formed config.
Proof.
  rewrite forEach_ok_iff. apply Forall_iff. intros e. apply check_entry_ok.
Qed.

Lemma Flat_validated_well_formed (config : list ConfigEntry) :
  Flat.tryValidateConfig config = inr tt → Forall well_formed config.
Proof.
  intros Hok. apply forEach_check_entry.
  unfold Flat.tryValidateConfig in Hok.
  by destruct (forEach check_entry config) as [|[]].
Qed.

Lemma Nested_validated_well_formed (config : list ConfigEntry) :
  Nested.tryValidateConfig config = inr tt → Forall well_formed config.
Proof.
  intros Hok. apply forEach_check_entry.
  unfold Nested.tryValidateConfig in Hok.
  by destruct (forEach check_entry config) as [|[]].
Qed.

Lemma Nested_validated_keys_distinct (config : list ConfigEntry) :
  Nested.tryValidateConfig config = inr tt → NoDup (key <$> config).
Proof.
  unfold Nested.tryValidateConfig. intros Hok.
  destruct (forEach check_entry config) as [|[]]; [done|].
  rewrite bind_inr in Hok.
  destruct (mapJs name config) as [|names]; [done|].
  rewrite bind_inr in Hok.
  destruct (has_duplicates names); [done|].
  destruct (has_duplicates (key <$> config)) eqn:Hk; [done|].
  by apply has_duplicates_false.
Qed.

(** X5.  The validation of [src/app.js] accepts a configuration exactly when
    every entry has a non-empty string name, a key and an image, and the
    cleaned names are pairwise distinct. *)
Theorem Flat_tryValidateConfig_iff (config : list ConfigEntry) :
  Flat.tryValidateConfig config = inr tt
  ↔ Forall well_formed config ∧ names_distinct config.
Proof.
  split.
  - intros Hok. split; [by apply Flat_validated_well_formed|].
    by apply Flat_validated_names_distinct.
  - intros [Hwf Hnd]. by apply Flat_tryValidateConfig_checks.
Qed.

(** X6.  The validation of the file-based variant accepts a configuration
    exactly when every entry has a non-empty string name, a key and an
    image, the cleaned names are pairwise distinct and the keys are pairwise
    distinct. *)
Theorem Nested_tryValidateConfig_iff (config : list ConfigEntry) :
  Nested.tryValidateConfig config = inr tt
  ↔ Forall well_formed config ∧ names_distinct config
    ∧ NoDup (key <$> config).
Proof.
  split.
  - intros Hok. split; [by apply Nested_validated_well_formed|].
    split; [by apply Nested_validated_names_distinct|].
    by apply Nested_validated_keys_distinct.
  - intros (Hwf & Hnd & Hkeys). by apply Nested_tryValidateConfig_checks.
Qed.

Lemma forEach_first_failure {A} (f : A → Js unit) (good rest : list A)
    (x : A) (t : Thrown) :
  Forall (λ y, f y = inr tt) good → f x = inl t →
  forEach f (good ++ x :: rest)%list = inl t.
Proof.
  induction 1 as [|y good Hy _ IH]; intros Hx; simpl.
  - by rewrite Hx.
  - by rewrite Hy, bind_inr, IH.
Qed.

(** X7.  The error of a validation is that of the first entry that fails its
    checks: after entries that pass, an entry whose name is not a string
    gives a [TypeError], one whose cleaned name is empty gives "Missing
    config name.", one without key gives the message naming the cleaned name
    of the entry, and one with a key and without image likewise.  Both
    validators behave so, whatever follows the failing entry. *)
Theorem tryValidateConfig_first_failure
    (good rest : list ConfigEntry) (e : ConfigEntry) (t : Thrown) :
  Forall well_formed good →
  match _name e with
  | JsStr raw =>
      if String.eqb raw "" then t = ThrowStr "Missing config name."
      else if negb (truthy (key e))
      then t = ThrowStr ("Missing key for config '"
                         ++ cleanConfigName raw ++ "'")
      else truthy (image e) = false
           ∧ t = ThrowStr ("Missing image for config '"
                           ++ cleanConfigName raw ++ "'")
  | _ => t = TypeError
  end →
  Flat.tryValidateConfig (good ++ e :: rest)%list = inl t
  ∧ Nested.tryValidateConfig (good ++ e :: rest)%list = inl t.
Proof.
  intros Hgood He.
  assert (Hcheck : check_entry e = inl t).
  { unfold check_entry, name.
    destruct (_name e) as [| | | |raw]; try by subst t.
    change (mret (cleanConfigName raw) : Js string)
      with (inr (cleanConfigName raw) : Js string).
    rewrite bind_inr.
    destruct (String.eqb raw "") eqn:Hraw.
    { apply String.eqb_eq in Hraw. by subst. }
    apply String.eqb_neq in Hraw.
    destruct (String.eqb (cleanConfigName raw) "") eqn:Hc.
    { by apply String.eqb_eq, replace_runs_empty in Hc. }
    destruct (truthy (key e)); simpl in *; [|by subst t].
    destruct He as [-> ->]. done. }
  assert (Heach : forEach check_entry (good ++ e :: rest)%list = inl t).
  { apply forEach_first_failure; [|done].
    eapply Forall_impl; [exact Hgood|]. apply check_entry_well_formed. }
  unfold Flat.tryValidateConfig, Nested.tryValidateConfig.
  by rewrite Heach.
Qed.

Lemma tryValidateConfig_first_failure_witness :
  Flat.tryValidateConfig
    ([entry_svc_a] ++ assign_key JsUndefined entry_svc_b :: [entry_limit_two])%list
  = inl (ThrowStr "Missing key for config 'svc-b'")
  ∧ Nested.tryValidateConfig
      ([entry_svc_a] ++ assign_key JsUndefined entry_svc_b :: [entry_limit_two])%list
    = inl (ThrowStr "Missing key for config 'svc-b'").
Proof.
  refine (tryValidateConfig_first_failure [entry_svc_a] [entry_limit_two]
            (assign_key JsUndefined entry_svc_b)
            (ThrowStr "Missing key for config 'svc-b'") _ eq_refl).
  repeat constructor; by exists "svc a".
Defined.

(** ** More on the kick handler *)

Lemma find_key_None (config : list ConfigEntry) (k : string) :
  (∀ e, e ∈ config → key e ≠ JsStr k) → find_key config k = None.
Proof.
  intros Hnone. unfold find_key. apply list_find_None.
  apply Forall_forall. intros e He. by apply Hnone.
Qed.

Lemma find_key_Some (config : list ConfigEntry) (k : string) (i : nat)
    (e : ConfigEntry) :
  find_key config k = Some (i, e) →
  config !! i = Some e ∧ e ∈ config ∧ key e = JsStr k.
Proof.
  unfold find_key. intros (Hi & Hk & _)%list_find_Some.
  split; [done|]. split; [|done]. by apply list_elem_of_lookup_2 in Hi.
Qed.

(** X8.  A request whose key is the key of no entry is answered 400 by
    either handler, and the configuration is left as it was; in particular
    every request to a server without entries is answered so. *)
Theorem kick_unknown_key (config : list ConfigEntry) (req : Request)
    (uniq : string) :
  (∀ e, e ∈ config → key e ≠ JsStr (req_key req)) →
  Flat.kick config req uniq = (config, inr (Respond 400))
  ∧ Nested.kick config req uniq = (config, inr (Respond 400)).
Proof.
  intros Hnone. unfold Flat.kick, Nested.kick.
  by rewrite (find_key_None config (req_key req) Hnone).
Qed.

Lemma kick_unknown_key_witness :
  Flat.kick [] (request_with ∅) "0b5c" = ([], inr (Respond 400))
  ∧ Nested.kick [] (request_with ∅) "0b5c" = ([], inr (Respond 400)).
Proof.
  apply (kick_unknown_key [] (request_with ∅) "0b5c").
  intros e He. by apply elem_of_nil in He.
Defined.

Lemma existsb_eqb_elem (ip : string) (l : list string) :
  existsb (λ af, String.eqb af ip) l = true ↔ ip ∈ l.
Proof.
  rewrite existsb_exists. split.
  - intros (af & Hin & ->%String.eqb_eq). by apply list_elem_of_In.
  - intros Hin. exists ip. split; [by apply list_elem_of_In|].
    apply String.eqb_refl.
Qed.

(** X9.  For a request whose key selects an entry, either handler answers
    403 exactly when the client address is not allowlisted: not a member of
    the list, or different from the single configured address.  The test is
    equality of strings.  A refused request leaves the configuration as it
    was. *)
Theorem kick_forbidden_iff (config : list ConfigEntry) (req : Request)
    (uniq : string) (i : nat) (matched : ConfigEntry) :
  find_key config (req_key req) = Some (i, matched) →
  let allowed :=
    match allowFrom matched with
    | AfList l => req_clientIp req ∈ l
    | AfAddress a => a = "" ∨ a = req_clientIp req
    | AfAbsent => True
    end in
  ((Flat.kick config req uniq).2 = inr (Respond 403) ↔ ¬ allowed)
  ∧ ((Nested.kick config req uniq).2 = inr (Respond 403) ↔ ¬ allowed)
  ∧ (¬ allowed →
     (Flat.kick config req uniq).1 = config
     ∧ (Nested.kick config req uniq).1 = config).
Proof.
  intros Hfind allowed.
  assert (Hrefused : address_refused (allowFrom matched) (req_clientIp req)
                     = true ↔ ¬ allowed).
  { subst allowed. unfold address_refused.
    destruct (allowFrom matched) as [|a|l].
    - split; [done|tauto].
    - rewrite Bool.andb_true_iff, !Bool.negb_true_iff, !String.eqb_neq.
      tauto.
    - rewrite Bool.negb_true_iff, <- Bool.not_true_iff_false.
      by rewrite existsb_eqb_elem. }
  unfold Flat.kick, Nested.kick. rewrite Hfind.
  destruct (address_refused (allowFrom matched) (req_clientIp req)).
  - assert (¬ allowed) by by apply Hrefused. simpl. tauto.
  - assert (Hallowed : ¬ ¬ allowed).
    { intros Hn. apply Hrefused in Hn. done. }
    split; [|split]; [| |tauto].
    + split; [|tauto]. simpl.
      destruct (name matched); [done|]. rewrite bind_inr.
      by destruct (genNewInstanceName matched uniq).
    + split; [|tauto].
      destruct (name matched); [done|].
      destruct (Nested.extractAllowedQueryParams _ _); [done|].
      destruct (spread_or_empty _); [done|]. simpl.
      by destruct (genNewInstanceName _ uniq).
Qed.

Lemma kick_forbidden_iff_witness :
  (Flat.kick [entry_limit_two]
     {| req_key := "k"; req_clientIp := "10.0.0.7";
        req_query := plain_query ∅ |}
     "0b5c").2 = inr (Respond 403)
  ↔ ¬ "10.0.0.7" ∈ ["127.0.0.1"; "::1"].
Proof.
  exact (proj1 (kick_forbidden_iff [entry_limit_two]
                  {| req_key := "k"; req_clientIp := "10.0.0.7";
                     req_query := plain_query ∅ |}
                  "0b5c" 0 entry_limit_two eq_refl)).
Defined.

(** X10.  When the keys of the configuration are pairwise distinct, as the
    file-based validation demands, the lookup of the handler finds each
    entry under its own key. *)
Theorem find_key_unique (config : list ConfigEntry) (k : string)
    (i : nat) (e : ConfigEntry) :
  Nested.tryValidateConfig config = inr tt →
  config !! i = Some e → key e = JsStr k →
  find_key config k = Some (i, e).
Proof.
  intros Hkeys%Nested_validated_keys_distinct Hi Hk.
  unfold find_key. apply list_find_Some. split; [done|]. split; [done|].
  intros j y Hj Hlt Hy.
  assert (j = i); [|lia].
  apply (NoDup_lookup (key <$> config) j i (JsStr k)); [done| |].
  - by rewrite list_lookup_fmap, Hj, <- Hy.
  - by rewrite list_lookup_fmap, Hi, <- Hk.
Qed.

Lemma find_key_unique_witness :
  find_key [entry_svc_a; entry_limit_two] "k" = Some (1%nat, entry_limit_two).
Proof.
  exact (find_key_unique [entry_svc_a; entry_limit_two] "k" 1
           entry_limit_two eq_refl eq_refl eq_refl).
Defined.

(** X11.  Once the configuration has passed the validation of
    [src/app.js], its handler throws for no request: it answers 400 or 403,
    or starts a launch with the image and the command of the matched entry
    and with every configured option other than [name] as configured. *)
Theorem Flat_kick_total (config : list ConfigEntry) (req : Request)
    (uniq : string) :
  Flat.tryValidateConfig config = inr tt →
  (Flat.kick config req uniq).2 = inr (Respond 400)
  ∨ (Flat.kick config req uniq).2 = inr (Respond 403)
  ∨ ∃ i matched options,
      find_key config (req_key req) = Some (i, matched)
      ∧ (Flat.kick config req uniq).2
        = inr (Kicked (image matched) (cmd matched) options)
      ∧ ∀ p, p ≠ "name" → options !! p = createOptions matched !! p.
Proof.
  intros Hwf%Flat_validated_well_formed. unfold Flat.kick.
  destruct (find_key config (req_key req)) as [[i matched]|] eqn:Hfind;
    [|by left].
  destruct (address_refused _ _); [right; by left|].
  right. right. exists i, matched.
  apply find_key_Some in Hfind as (_ & Hin & _).
  rewrite Forall_forall in Hwf.
  destruct (Hwf matched Hin) as [(raw & Hraw & _) _].
  unfold genNewInstanceName, name. rewrite Hraw. simpl.
  eexists. split; [done|]. split; [done|].
  intros p Hp. unfold object_spread. rewrite lookup_union.
  rewrite lookup_singleton_ne by done.
  by destruct (createOptions matched !! p).
Qed.

Lemma Flat_kick_total_witness :
  (Flat.kick [entry_limit_two] (request_with ∅) "0b5c").2
  = inr (Respond 400)
  ∨ (Flat.kick [entry_limit_two] (request_with ∅) "0b5c").2
    = inr (Respond 403)
  ∨ ∃ i matched options,
      find_key [entry_limit_two] (req_key (request_with ∅))
      = Some (i, matched)
      ∧ (Flat.kick [entry_limit_two] (request_with ∅) "0b5c").2
        = inr (Kicked (image matched) (cmd matched) options).
Proof.
  destruct (Flat_kick_total [entry_limit_two] (request_with ∅) "0b5c"
              eq_refl) as [H|[H|(i & matched & options & H1 & H2 & _)]].
  - left. exact H.
  - right. left. exact H.
  - right. right. exists i, matched, options. split; [exact H1|exact H2].
Defined.

Lemma same_but_env_refl (e : ConfigEntry) : same_but_env e e.
Proof. by repeat split. Qed.

Lemma same_but_env_assign (e : ConfigEntry) (v : Json) :
  same_but_env e (assign_createOptions "env" v e).
Proof.
  repeat split; try done. intros p Hp. simpl. by rewrite lookup_insert_ne.
Qed.

Lemma Forall2_same_but_env_insert (config : list ConfigEntry) (i : nat)
    (e e' : ConfigEntry) :
  config !! i = Some e → same_but_env e e' →
  Forall2 same_but_env config (<[i := e']> config).
Proof.
  revert i. induction config as [|x config IH]; intros [|i] Hi He; try done;
    simpl in *.
  - injection Hi as ->. constructor; [done|].
    apply Forall_Forall2_diag, Forall_forall. intros ? _.
    apply same_but_env_refl.
  - constructor; [apply same_but_env_refl|by apply IH].
Qed.

Lemma Nested_kick_same_but_env (config : list ConfigEntry) (req : Request)
    (uniq : string) :
  Forall2 same_but_env config (Nested.kick config req uniq).1.
Proof.
  assert (Hsame : Forall2 same_but_env config config).
  { apply Forall_Forall2_diag, Forall_forall. intros ? _.
    apply same_but_env_refl. }
  unfold Nested.kick.
  destruct (find_key config (req_key req)) as [[i matched]|] eqn:Hfind;
    [|done].
  destruct (address_refused _ _); [done|].
  destruct (name matched); [done|].
  destruct (Nested.extractAllowedQueryParams _ _); [done|].
  destruct (spread_or_empty _); [done|]. simpl.
  apply find_key_Some in Hfind as (Hi & _ & _).
  apply Forall2_same_but_env_insert with matched; [done|].
  apply same_but_env_assign.
Qed.

(** X12.  Whatever the request and however it ends, the file-based handler
    leaves the configuration with the same entries in the same order, each
    with its name, key, image, credentials, allowlists, command and limit
    unchanged and with every property of its [createOptions] other than
    [env] unchanged. *)
Theorem Nested_kick_frame (config : list ConfigEntry) (req : Request)
    (uniq : string) :
  length (Nested.kick config req uniq).1 = length config
  ∧ ∀ j e, config !! j = Some e →
      ∃ e', (Nested.kick config req uniq).1 !! j = Some e'
            ∧ same_but_env e e'.
Proof.
  pose proof (Nested_kick_same_but_env config req uniq) as Hframe.
  split; [symmetry; by eapply Forall2_length|].
  intros j e Hj. by eapply Forall2_lookup_l.
Qed.

Lemma same_but_env_check (e e' : ConfigEntry) :
  same_but_env e e' →
  name e' = name e ∧ key e' = key e ∧ check_entry e' = check_entry e.
Proof.
  intros (Hn & Hk & Hi & _).
  assert (Hname : name e' = name e) by (unfold name; by rewrite Hn).
  unfold check_entry, key, image. by rewrite Hname, Hk, Hi.
Qed.

Lemma Forall2_same_but_env_validation (config config' : list ConfigEntry) :
  Forall2 same_but_env config config' →
  forEach check_entry config' = forEach check_entry config
  ∧ mapJs name config' = mapJs name config
  ∧ key <$> config' = key <$> config.
Proof.
  induction 1 as [|e e' config config' He _ (IH1 & IH2 & IH3)]; [done|].
  destruct (same_but_env_check e e' He) as (Hn & Hk & Hc).
  cbn [forEach mapJs]. by rewrite !fmap_cons, Hn, Hk, Hc, IH1, IH2, IH3.
Qed.

(** X13.  Handling a request does not change what validation says of the
    configuration: both validators give the same result before and after
    any request to the file-based handler, so a configuration that was
    accepted at startup stays acceptable. *)
Theorem Nested_kick_keeps_validation (config : list ConfigEntry)
    (req : Request) (uniq : string) :
  Nested.tryValidateConfig (Nested.kick config req uniq).1
  = Nested.tryValidateConfig config
  ∧ Flat.tryValidateConfig (Nested.kick config req uniq).1
    = Flat.tryValidateConfig config.
Proof.
  destruct (Forall2_same_but_env_validation config _
              (Nested_kick_same_but_env config req uniq)) as (H1 & H2 & H3).
  unfold Nested.tryValidateConfig, Flat.tryValidateConfig.
  by rewrite H1, H2, H3.
Qed.

(** X14.  When the file-based handler starts a launch, the [env] of the
    launch options is the configured environment of the matched entry
    followed by the strings derived from the query, in this order and
    without removing repetitions; the same list is what the entry holds as
    its [env] afterwards, and the other entries are as before. *)
Theorem Nested_kick_env_merge (config config' : list ConfigEntry)
    (req : Request) (uniq : string) (i : nat) (matched : ConfigEntry)
    (pulled : JsVal) (cmdline : list string) (options : JsObject) :
  find_key config (req_key req) = Some (i, matched) →
  Nested.kick config req uniq
  = (config', inr (Kicked pulled cmdline options)) →
  ∃ configured derived,
    spread_or_empty (createOptions matched !! "env") = inr configured
    ∧ Nested.extractAllowedQueryParams matched (req_query req) = inr derived
    ∧ options !! "env" = Some (JArr (configured ++ (JString <$> derived)))
    ∧ (createOptions <$> config' !! i) ≫= (.!! "env")
      = Some (JArr (configured ++ (JString <$> derived)))
    ∧ ∀ j, j ≠ i → config' !! j = config !! j.
Proof.
  intros Hfind. unfold Nested.kick. rewrite Hfind.
  destruct (address_refused _ _); [done|].
  destruct (name matched); [done|].
  destruct (Nested.extractAllowedQueryParams _ _) as [|derived]; [done|].
  destruct (spread_or_empty _) as [|configured]; [done|].
  destruct (genNewInstanceName _ uniq) as [|instanceName]; [done|].
  rewrite bind_inr. intros [= <- _ _ <-].
  apply find_key_Some in Hfind as (Hi & _ & _).
  exists configured, derived. split; [done|]. split; [done|].
  split; [|split].
  - unfold object_spread. rewrite lookup_union. unfold createOptions. simpl.
    rewrite lookup_insert_eq. by rewrite lookup_singleton_ne.
  - rewrite list_lookup_insert_eq by by eapply lookup_lt_Some.
    simpl. unfold createOptions. simpl. by rewrite lookup_insert_eq.
  - intros j Hj. by rewrite list_lookup_insert_ne.
Qed.

Lemma Nested_kick_env_merge_witness :
  ∃ configured derived,
    spread_or_empty (createOptions entry_allow_foo !! "env") = inr configured
    ∧ Nested.extractAllowedQueryParams entry_allow_foo
        (req_query (request_with {[ "FOO" := "bar" ]})) = inr derived
    ∧ (object_spread {[ "name" := JString "svc_u1" ]}
         {[ "env" := JArr [JString "A=1"; JString "FOO=bar"] ]} : JsObject)
      !! "env" = Some (JArr (configured ++ (JString <$> derived))).
Proof.
  assert (Hkick :
            Nested.kick [entry_allow_foo]
              (request_with {[ "FOO" := "bar" ]}) "u1"
            = ([assign_createOptions "env"
                  (JArr [JString "A=1"; JString "FOO=bar"]) entry_allow_foo],
               inr (Kicked (JsStr "alpine:3") []
                      (object_spread {[ "name" := JString "svc_u1" ]}
                         {[ "env" := JArr [JString "A=1";
                                           JString "FOO=bar"] ]}))))
    by (vm_compute; reflexivity).
  destruct (Nested_kick_env_merge [entry_allow_foo] _
              (request_with {[ "FOO" := "bar" ]}) "u1" 0 entry_allow_foo
              _ _ _ eq_refl Hkick)
    as (configured & derived & H1 & H2 & H3 & _).
  exists configured, derived. split; [exact H1|]. split; [exact H2|exact H3].
Defined.

(** ** More on query parameters *)

Lemma extract_ext (allow : list string) (q1 q2 : JsQuery)
    (render1 render2 : string → Js string) :
  (∀ k, k ∈ allow → query_get q1 k = query_get q2 k) →
  (∀ k, k ∈ allow → render1 k = render2 k) →
  mapJs render1 (filter (λ k, query_has q1 k) allow)
  = mapJs render2 (filter (λ k, query_has q2 k) allow).
Proof.
  induction allow as [|k allow IH]; intros Hq Hr; [done|].
  assert (IH' : mapJs render1 (filter (λ k, query_has q1 k) allow)
                = mapJs render2 (filter (λ k, query_has q2 k) allow)).
  { apply IH; intros k' Hk'; [apply Hq|apply Hr]; apply elem_of_cons;
      by right. }
  assert (Hk : k ∈ k :: allow) by (apply elem_of_cons; by left).
  pose proof (Hq k Hk) as Hqk. rewrite !filter_cons.
  destruct (decide (query_has q1 k)) as [H1|H1],
    (decide (query_has q2 k)) as [H2|H2].
  - simpl. by rewrite (Hr k Hk), IH'.
  - exfalso. apply H2. unfold query_has in *. by rewrite <- Hqk.
  - exfalso. apply H1. unfold query_has in *. by rewrite Hqk.
  - done.
Qed.

(** X15.  The extraction looks at the allowlisted names only: two queries
    in which every allowlisted name reads the same (the same value, own or
    inherited, or absent in both) give the same result, be it a list or an
    exception, whatever else they carry. *)
Theorem extractAllowedQueryParams_only_allowlisted (e : ConfigEntry)
    (q1 q2 : JsQuery) :
  (∀ k, k ∈ queryParamsToEnv e → query_get q1 k = query_get q2 k) →
  Nested.extractAllowedQueryParams e q1
  = Nested.extractAllowedQueryParams e q2.
Proof.
  intros Hq. unfold Nested.extractAllowedQueryParams.
  apply extract_ext; [done|]. intros k Hk. by rewrite (Hq k Hk).
Qed.

Lemma extractAllowedQueryParams_only_allowlisted_witness :
  Nested.extractAllowedQueryParams entry_allow_foo
    (plain_query {[ "FOO" := "bar"; "BAZ" := "100%" ]})
  = Nested.extractAllowedQueryParams entry_allow_foo
      (plain_query {[ "FOO" := "bar" ]}).
Proof.
  apply (extractAllowedQueryParams_only_allowlisted entry_allow_foo).
  intros k Hk. apply list_elem_of_singleton in Hk as ->. reflexivity.
Defined.

Lemma Decode_percent_free (s : string) :
  string_forall not_percent s = true → Decode [] 0 s = inr s.
Proof.
  induction s as [|c r IH]; [done|].
  simpl. intros [Hc Hr]%andb_prop. unfold not_percent in Hc.
  apply Bool.negb_true_iff in Hc. rewrite Hc, (IH Hr). done.
Qed.

(** X16.  "Present in the query" is what [key in query] says, for own and
    inherited properties alike.  When the value of every allowlisted name
    present in the query converts to a string without percent sign, the
    extraction does not throw and renders each such name, in allowlist
    order, as NAME=text with the text of the conversion as it is. *)
Theorem extractAllowedQueryParams_verbatim (e : ConfigEntry)
    (query : JsQuery) :
  (∀ k v, k ∈ queryParamsToEnv e → query_get query k = Some v →
          ∃ text, ToString v = inr text
                  ∧ string_forall not_percent text = true) →
  ∃ env,
    Nested.extractAllowedQueryParams e query = inr env
    ∧ Forall2 (verbatim_from query) (allowed_present e query) env.
Proof.
  intros Hfree. unfold Nested.extractAllowedQueryParams, allowed_present.
  set (render := λ k : string, _).
  assert (Hrender : ∀ k v, k ∈ queryParamsToEnv e →
                           query_get query k = Some v →
                           ∃ text, ToString v = inr text
                                   ∧ render k = inr (k ++ "=" ++ text)).
  { intros k v Hk Hv. destruct (Hfree k v Hk Hv) as (text & Htext & Hok).
    exists text. split; [done|]. subst render. simpl.
    rewrite (render_string query k v text Hv Htext).
    unfold decodeURIComponent.
    by rewrite (Decode_percent_free text Hok). }
  clearbody render. clear Hfree.
  induction (queryParamsToEnv e) as [|k allow IH].
  - exists []. split; [done|]. constructor.
  - destruct IH as (env & Henv & Hall).
    { intros k' v Hk'. apply Hrender, elem_of_cons. by right. }
    rewrite filter_cons.
    destruct (decide (query_has query k)) as [[v Hv]|]; [|by exists env].
    destruct (Hrender k v) as (text & Htext & Hr);
      [apply elem_of_cons; by left|done|].
    exists ((k ++ "=" ++ text) :: env). cbn [mapJs].
    rewrite Hr, bind_inr, Henv, bind_inr. split; [done|].
    constructor; [by exists v, text|done].
Qed.

Lemma extractAllowedQueryParams_verbatim_witness :
  ∃ env,
    Nested.extractAllowedQueryParams entry_allow_toString
      (plain_query {[ "FOO" := "a b/c"; "BAZ" := "100%" ]}) = inr env
    ∧ Forall2
        (verbatim_from (plain_query {[ "FOO" := "a b/c"; "BAZ" := "100%" ]}))
        (allowed_present entry_allow_toString
           (plain_query {[ "FOO" := "a b/c"; "BAZ" := "100%" ]})) env.
Proof.
  apply (extractAllowedQueryParams_verbatim entry_allow_toString).
  intros k v Hk Hv. apply list_elem_of_singleton in Hk as ->.
  vm_compute in Hv. injection Hv as <-.
  exists "function toString() { [native code] }". split; reflexivity.
Defined.

(** ** More on the tracker *)

(** X17.  Whatever the limit of the entry is, an admission that returns does
    one of two things: it answers false and leaves the map as it is, or it
    answers true and puts the identifier at the end of the bucket of the
    entry's name.  Buckets of other names are never touched, and nothing is
    ever removed. *)
Theorem tryTrack_appends_or_keeps
    (StringToNumber : string → option Num) (e : ConfigEntry)
    (instanceName : string) (m m' : RunningMap) (admitted : bool) :
  tryTrackNewRunningInstance StringToNumber e instanceName m
  = inr (admitted, m') →
  ∃ n,
    name e = inr n
    ∧ bucket m' n
      = (bucket m n ++ if admitted then [instanceName] else [])%list
    ∧ (∀ n', n' ≠ n → m' !! n' = m !! n')
    ∧ (admitted = false → m' = m).
Proof.
  unfold tryTrackNewRunningInstance.
  destruct (name e) as [|n] eqn:Hn; [done|]. rewrite bind_inr.
  intros Hstep. exists n. split; [done|]. unfold bucket.
  destruct (m !! n) as [l|] eqn:Hm.
  - destruct (length_ge _ _ _); injection Hstep as <- <-.
    + rewrite Hm. simpl. by rewrite app_nil_r.
    + rewrite lookup_insert_eq. simpl. split; [done|].
      split; [|done]. intros n' Hne. by rewrite lookup_insert_ne.
  - injection Hstep as <- <-. rewrite lookup_insert_eq. simpl.
    split; [done|]. split; [|done]. intros n' Hne.
    by rewrite lookup_insert_ne.
Qed.

Lemma tryTrack_appends_or_keeps_witness :
  ∃ n,
    name entry_limit_two = inr n
    ∧ bucket {[ "svc" := ["svc_1"] ]} n
      = (bucket ∅ n ++ if true then ["svc_1"] else [])%list.
Proof.
  assert (Hstep :
            tryTrackNewRunningInstance (λ _, None) entry_limit_two "svc_1" ∅
            = inr (true, {[ "svc" := ["svc_1"] ]}))
    by (vm_compute; reflexivity).
  destruct (tryTrack_appends_or_keeps (λ _, None) entry_limit_two "svc_1" ∅
              {[ "svc" := ["svc_1"] ]} true Hstep) as (n & Hn & Hb & _).
  exists n. split; [exact Hn|exact Hb].
Defined.

Lemma splice_prefix {A} (start : Z) (l : list A) :
  splice start l `prefix_of` l.
Proof. unfold splice. apply prefix_take. Qed.

(** X18.  A release for an entry with a string name never throws.  It
    leaves in the bucket of the entry's name a prefix of what was there, so
    it adds and reorders nothing; it keeps the bucket itself, empty if need
    be, and it leaves the buckets of other names alone. *)
Theorem untrack_truncates (e : ConfigEntry) (n instanceName : string)
    (m : RunningMap) :
  name e = inr n →
  ∃ m',
    untrackRunningInstance e instanceName m = inr m'
    ∧ bucket m' n `prefix_of` bucket m n
    ∧ (is_Some (m' !! n) ↔ is_Some (m !! n))
    ∧ ∀ n', n' ≠ n → m' !! n' = m !! n'.
Proof.
  intros Hn. unfold untrackRunningInstance. rewrite Hn, bind_inr.
  unfold bucket. destruct (m !! n) as [l|] eqn:Hm.
  - destruct (0 <? length l)%nat.
    + eexists. split; [done|]. rewrite lookup_insert_eq. simpl.
      split; [apply splice_prefix|]. split; [by split; eauto|].
      intros n' Hne. by rewrite lookup_insert_ne.
    + exists m. rewrite Hm. by repeat split.
  - exists m. rewrite Hm. by repeat split.
Qed.

Lemma untrack_truncates_witness :
  ∃ m',
    untrackRunningInstance entry_limit_two "svc_1"
      {[ "svc" := ["svc_1"; "svc_2"] ]} = inr m'
    ∧ bucket m' "svc" `prefix_of`
        bucket {[ "svc" := ["svc_1"; "svc_2"] ]} "svc".
Proof.
  destruct (untrack_truncates entry_limit_two "svc" "svc_1"
              {[ "svc" := ["svc_1"; "svc_2"] ]} eq_refl)
    as (m' & Hm' & Hp & _).
  exists m'. split; [exact Hm'|exact Hp].
Defined.

(** X19.  A release when nothing is tracked under the entry's name, because
    there is no bucket or because it is empty, returns the map as it was. *)
Theorem untrack_nothing_tracked (e : ConfigEntry) (n instanceName : string)
    (m : RunningMap) :
  name e = inr n → bucket m n = [] →
  untrackRunningInstance e instanceName m = inr m.
Proof.
  intros Hn Hb. unfold untrackRunningInstance. rewrite Hn, bind_inr.
  unfold bucket in Hb. destruct (m !! n) as [l|]; [|done].
  simpl in Hb. by subst l.
Qed.

Lemma untrack_nothing_tracked_witness :
  untrackRunningInstance entry_limit_two "svc_1" {[ "svc" := [] ]}
  = inr {[ "svc" := [] ]}.
Proof.
  exact (untrack_nothing_tracked entry_limit_two "svc" "svc_1"
           {[ "svc" := [] ]} eq_refl eq_refl).
Defined.

Lemma indexOf_app_fresh (l : list string) (x : string) :
  x ∉ l → indexOf (l ++ [x]) x = Z.of_nat (length l).
Proof.
  induction l as [|y l IH]; intros Hx; simpl.
  - by destruct (decide (x = x)).
  - apply not_elem_of_cons in Hx as [Hne Hx].
    destruct (decide (y = x)); [congruence|]. rewrite (IH Hx).
    destruct (Z.ltb_spec (Z.of_nat (length l)) 0); lia.
Qed.

(** X20.  Admission and release undo each other for an identifier that is
    not yet tracked under the entry's name: after a successful admission,
    the release of the same identifier gives back the bucket as it was
    before, and no other bucket has changed. *)
Theorem track_untrack_roundtrip
    (StringToNumber : string → option Num) (e : ConfigEntry)
    (n instanceName : string) (m m1 : RunningMap) :
  name e = inr n → instanceName ∉ bucket m n →
  tryTrackNewRunningInstance StringToNumber e instanceName m
  = inr (true, m1) →
  ∃ m2,
    untrackRunningInstance e instanceName m1 = inr m2
    ∧ bucket m2 n = bucket m n
    ∧ ∀ n', n' ≠ n → m2 !! n' = m !! n'.
Proof.
  intros Hn Hfresh Hstep.
  assert (Hb1 : bucket m1 n = (bucket m n ++ [instanceName])%list
                ∧ ∀ n', n' ≠ n → m1 !! n' = m !! n').
  { unfold tryTrackNewRunningInstance in Hstep.
    rewrite Hn, bind_inr in Hstep. unfold bucket.
    destruct (m !! n) as [l|] eqn:Hm.
    - destruct (length_ge _ _ _); [done|]. injection Hstep as <-.
      rewrite lookup_insert_eq. split; [done|].
      intros n' Hne. by rewrite lookup_insert_ne.
    - injection Hstep as <-. rewrite lookup_insert_eq. split; [done|].
      intros n' Hne. by rewrite lookup_insert_ne. }
  destruct Hb1 as [Hb1 Ho1].
  destruct (untrack_bucket e n m1 instanceName Hn) as (m2 & Hm2 & Hb2 & Ho2).
  exists m2. split; [done|]. split.
  - rewrite Hb2, Hb1, (indexOf_app_fresh _ _ Hfresh). unfold splice.
    destruct (Z.ltb_spec (Z.of_nat (length (bucket m n))) 0); [lia|].
    rewrite length_app. simpl.
    replace (Z.to_nat _) with (length (bucket m n)) by lia.
    by rewrite take_app_length.
  - intros n' Hne. by rewrite Ho2, Ho1.
Qed.

Lemma track_untrack_roundtrip_witness :
  ∃ m2,
    untrackRunningInstance entry_limit_two "svc_2"
      {[ "svc" := ["svc_1"; "svc_2"] ]} = inr m2
    ∧ bucket m2 "svc" = bucket {[ "svc" := ["svc_1"] ]} "svc".
Proof.
  assert (Hstep :
            tryTrackNewRunningInstance (λ _, None) entry_limit_two "svc_2"
              {[ "svc" := ["svc_1"] ]}
            = inr (true, {[ "svc" := ["svc_1"; "svc_2"] ]}))
    by (vm_compute; reflexivity).
  assert (Hfresh : "svc_2" ∉ bucket {[ "svc" := ["svc_1"] ]} "svc").
  { intros Hin. apply list_elem_of_singleton in Hin. discriminate Hin. }
  destruct (track_untrack_roundtrip (λ _, None) entry_limit_two "svc"
              "svc_2" {[ "svc" := ["svc_1"] ]}
              {[ "svc" := ["svc_1"; "svc_2"] ]} eq_refl Hfresh Hstep)
    as (m2 & Hm2 & Hb & _).
  exists m2. split; [exact Hm2|exact Hb].
Defined.

(** X23.  The tracker has buckets for names of the configuration only: in
    every state reached from the empty map by admissions and releases for
    entries of the configuration, each name that has a bucket is the cleaned
    name of one of the entries. *)
Theorem reachable_buckets_named
    (StringToNumber : string → option Num) (config : list ConfigEntry)
    (m : RunningMap) :
  reachable StringToNumber config m →
  ∀ n, is_Some (m !! n) → ∃ e, e ∈ config ∧ name e = inr n.
Proof.
  induction 1 as [|m e instanceName r Hreach IH He Hstep
                  |m e instanceName m' Hreach IH He Hstep]; intros n Hsome.
  - rewrite lookup_empty in Hsome. by destruct Hsome.
  - unfold tryTrackNewRunningInstance in Hstep.
    destruct (name e) as [|n'] eqn:Hn'; [done|]. rewrite bind_inr in Hstep.
    destruct (decide (n = n')) as [->|Hne]; [by exists e|].
    apply IH.
    destruct (m !! n') as [l|]; [destruct (length_ge _ _ _)|];
      injection Hstep as <-; simpl in Hsome; try done;
      by rewrite lookup_insert_ne in Hsome.
  - destruct (name e) as [|n'] eqn:Hn'.
    { unfold untrackRunningInstance in Hstep. by rewrite Hn' in Hstep. }
    destruct (decide (n = n')) as [->|Hne]; [by exists e|].
    apply IH.
    destruct (untrack_bucket e n' m instanceName Hn') as (m'' & Hm'' & _ & Ho).
    rewrite Hstep in Hm''. injection Hm'' as <-. by rewrite <- (Ho n Hne).
Qed.

Lemma reachable_buckets_named_witness :
  ∃ e, e ∈ [entry_limit_two] ∧ name e = inr "svc".
Proof.
  refine (reachable_buckets_named (λ _, None) [entry_limit_two]
            {[ "svc" := ["svc_1"] ]} _ "svc" _).
  - refine (reach_track (λ _, None) [entry_limit_two] ∅ entry_limit_two
              "svc_1" (true, {[ "svc" := ["svc_1"] ]})
              (reach_start _ _) _ eq_refl).
    apply elem_of_cons. by left.
  - by exists ["svc_1"].
Defined.

(** X24.  The limit is consulted only when a bucket exists.  For an entry
    whose limit is a number not above zero, an admission succeeds when the
    entry's name has no bucket yet, and fails whenever the bucket exists,
    also when it is empty: after the first launch has been released no
    further one is admitted. *)
Theorem tryTrack_nonpositive_limit
    (StringToNumber : string → option Num) (e : ConfigEntry)
    (n instanceName : string) (L : Z) (m : RunningMap) :
  name e = inr n → limit e = JsNum L → (L ≤ 0)%Z →
  (m !! n = None →
   tryTrackNewRunningInstance StringToNumber e instanceName m
   = inr (true, <[n := [instanceName]]> m))
  ∧ (is_Some (m !! n) →
     tryTrackNewRunningInstance StringToNumber e instanceName m
     = inr (false, m)).
Proof.
  intros Hn Hl HL. unfold tryTrackNewRunningInstance.
  rewrite Hn, bind_inr. split.
  - by intros ->.
  - intros [l ->]. rewrite Hl, length_ge_num.
    destruct (Z.leb_spec L (Z.of_nat (length l))); [done|lia].
Qed.

Lemma tryTrack_nonpositive_limit_witness :
  tryTrackNewRunningInstance (λ _, None)
    (assign_limit (JsNum (-1)) entry_limit_two) "svc_2" {[ "svc" := [] ]}
  = inr (false, {[ "svc" := [] ]}).
Proof.
  refine (proj2 (tryTrack_nonpositive_limit (λ _, None)
                   (assign_limit (JsNum (-1)) entry_limit_two) "svc" "svc_2"
                   (-1) {[ "svc" := [] ]} eq_refl eq_refl _) _).
  - lia.
  - by exists [].
Defined.

(** X25.  A limit that does not convert to a number makes the comparison
    false every time: every admission for such an entry succeeds and appends
    the identifier, however many are tracked already. *)
Theorem tryTrack_NaN_limit
    (StringToNumber : string → option Num) (e : ConfigEntry)
    (n instanceName : string) (m : RunningMap) :
  name e = inr n → ToNumber StringToNumber (limit e) = None →
  tryTrackNewRunningInstance StringToNumber e instanceName m
  = inr (true, <[n := (bucket m n ++ [instanceName])%list]> m).
Proof.
  intros Hn Hnan. unfold tryTrackNewRunningInstance, length_ge, bucket.
  rewrite Hn, bind_inr, Hnan. by destruct (m !! n).
Qed.

Lemma tryTrack_NaN_limit_witness :
  tryTrackNewRunningInstance (λ _, None)
    (assign_limit (JsStr "two") entry_limit_two) "svc_3"
    {[ "svc" := ["svc_1"; "svc_2"] ]}
  = inr (true,
         <["svc" := (bucket {[ "svc" := ["svc_1"; "svc_2"] ]} "svc"
                     ++ ["svc_3"])%list]>
           {[ "svc" := ["svc_1"; "svc_2"] ]}).
Proof.
  exact (tryTrack_NaN_limit (λ _, None)
           (assign_limit (JsStr "two") entry_limit_two) "svc" "svc_3"
           {[ "svc" := ["svc_1"; "svc_2"] ]} eq_refl eq_refl).
Defined.

(** ** Startup *)

Lemma construct_all (construct : Conf → ConfigEntry)
    (elements : list (option Conf)) :
  (None ∈ elements ∧
   mapJs (λ r, match r with
               | Some conf => mret (construct conf)
               | None => throw TypeError
               end) elements = inl TypeError)
  ∨ ∃ confs,
      elements = Some <$> confs
      ∧ mapJs (λ r, match r with
                    | Some conf => mret (construct conf)
                    | None => throw TypeError
                    end) elements = inr (construct <$> confs).
Proof.
  induction elements as [|[conf|] elements IH].
  - right. by exists [].
  - destruct IH as [[Hin Hmap]|(confs & -> & Hmap)].
    + left. split; [apply elem_of_cons; by right|].
      cbn [mapJs]. change (mret (construct conf) : Js ConfigEntry)
        with (inr (construct conf) : Js ConfigEntry).
      by rewrite bind_inr, Hmap.
    + right. exists (conf :: confs). split; [done|].
      cbn [mapJs]. change (mret (construct conf) : Js ConfigEntry)
        with (inr (construct conf) : Js ConfigEntry).
      by rewrite bind_inr, Hmap.
  - left. split; [apply elem_of_cons; by left|done].
Qed.

Lemma startup_cases (construct : Conf → ConfigEntry)
    (validate : list ConfigEntry → Js unit) :
  startup construct validate NotAnArray = inl (ThrowStr "Invalid config.")
  ∧ (∀ elements, None ∈ elements →
       startup construct validate (ConfigArray elements) = inl TypeError)
  ∧ (∀ confs,
       startup construct validate (ConfigArray (Some <$> confs))
       = (_ ← validate (construct <$> confs); mret (construct <$> confs)))
  ∧ (∀ raw config,
       startup construct validate raw = inr config →
       ∃ confs, raw = ConfigArray (Some <$> confs)
                ∧ config = construct <$> confs
                ∧ validate config = inr tt).
Proof.
  split; [done|]. split; [|split].
  - intros elements Hnull. unfold startup.
    destruct (construct_all construct elements)
      as [[_ ->]|(confs & -> & _)]; [done|].
    apply list_elem_of_fmap in Hnull as (? & ? & _). done.
  - intros confs. unfold startup.
    destruct (construct_all construct (Some <$> confs))
      as [[Hnull _]|(confs' & Heq & ->)].
    + apply list_elem_of_fmap in Hnull as (? & ? & _). done.
    + apply (inj (fmap Some)) in Heq as <-. done.
  - intros [|elements] config; [done|]. unfold startup.
    destruct (construct_all construct elements)
      as [[_ ->]|(confs & -> & ->)]; [done|].
    rewrite bind_inr.
    destruct (validate (construct <$> confs)) as [|[]] eqn:Hv; [done|].
    rewrite bind_inr. intros [= <-]. by exists confs.
Qed.

(** X26.  Startup, in either variant: parsed configuration data that is not
    an array is refused with "Invalid config."; an array with a [null]
    element is refused with a [TypeError], wherever the element stands and
    whatever the other elements are; and when startup returns a
    configuration, the data was an array without [null] elements, the
    configuration holds the entry constructed from each element, in order,
    and the validator of the variant has accepted it. *)
Theorem startup_outcomes :
  (Flat_startup NotAnArray = inl (ThrowStr "Invalid config.")
   ∧ Nested_startup NotAnArray = inl (ThrowStr "Invalid config."))
  ∧ (∀ elements, None ∈ elements →
       Flat_startup (ConfigArray elements) = inl TypeError
       ∧ Nested_startup (ConfigArray elements) = inl TypeError)
  ∧ (∀ raw config,
       Flat_startup raw = inr config →
       ∃ confs, raw = ConfigArray (Some <$> confs)
                ∧ config = Flat.new_ConfigEntry <$> confs
                ∧ Flat.tryValidateConfig config = inr tt)
  ∧ (∀ raw config,
       Nested_startup raw = inr config →
       ∃ confs, raw = ConfigArray (Some <$> confs)
                ∧ config = new_ConfigEntry <$> confs
                ∧ Nested.tryValidateConfig config = inr tt).
Proof.
  destruct (startup_cases Flat.new_ConfigEntry Flat.tryValidateConfig)
    as (F1 & F2 & _ & F4).
  destruct (startup_cases new_ConfigEntry Nested.tryValidateConfig)
    as (N1 & N2 & _ & N4).
  split; [done|]. split; [|done].
  intros elements Hnull. split; [by apply F2|by apply N2].
Qed.

Lemma startup_outcomes_witness :
  Flat_startup (ConfigArray [Some conf_limit_zero; None]) = inl TypeError
  ∧ Nested_startup (ConfigArray [Some conf_limit_zero; None]) = inl TypeError.
Proof.
  apply (proj1 (proj2 startup_outcomes)).
  apply elem_of_cons. right. apply elem_of_cons. by left.
Defined.

(** ** Releases in general, and requests that end early *)

(** X21.  The release of a tracked identifier cuts the bucket at the first
    occurrence of the identifier: what was admitted before it stays, the
    identifier and everything admitted after it go. *)
Theorem untrack_cuts_at_first_occurrence (e : ConfigEntry)
    (n instanceName : string) (m : RunningMap) :
  name e = inr n → instanceName ∈ bucket m n →
  ∃ m' before after,
    bucket m n = (before ++ instanceName :: after)%list
    ∧ (instanceName ∉ before)
    ∧ untrackRunningInstance e instanceName m = inr m'
    ∧ bucket m' n = before.
Proof.
  intros Hn Hin.
  destruct (untrack_bucket e n m instanceName Hn) as (m' & Hm' & Hb & _).
  destruct (splice_indexOf_present _ _ Hin) as (i & Hi & Hfirst & Hsplice).
  exists m', (take i (bucket m n)), (drop (S i) (bucket m n)).
  split; [|split; [done|split; [done|by rewrite Hb]]].
  rewrite <- (take_drop_middle _ _ _ Hi) at 1. done.
Qed.

Lemma untrack_cuts_at_first_occurrence_witness :
  ∃ m' before after,
    bucket {[ "svc" := ["svc_1"; "svc_2"; "svc_3"] ]} "svc"
    = (before ++ "svc_2" :: after)%list
    ∧ ("svc_2" ∉ before)
    ∧ untrackRunningInstance entry_limit_two "svc_2"
        {[ "svc" := ["svc_1"; "svc_2"; "svc_3"] ]} = inr m'
    ∧ bucket m' "svc" = before.
Proof.
  refine (untrack_cuts_at_first_occurrence entry_limit_two "svc" "svc_2"
            {[ "svc" := ["svc_1"; "svc_2"; "svc_3"] ]} eq_refl _).
  apply elem_of_cons. right. apply elem_of_cons. by left.
Defined.

(** X22.  The release of an identifier that is not tracked under the
    entry's name, while others are, removes the identifier admitted last and
    keeps the rest. *)
Theorem untrack_untracked_drops_last (e : ConfigEntry)
    (n instanceName last : string) (kept : list string) (m : RunningMap) :
  name e = inr n → bucket m n = (kept ++ [last])%list →
  instanceName ∉ bucket m n →
  ∃ m',
    untrackRunningInstance e instanceName m = inr m'
    ∧ bucket m' n = kept.
Proof.
  intros Hn Hb Hnot.
  destruct (untrack_bucket e n m instanceName Hn) as (m' & Hm' & Hb' & _).
  exists m'. split; [done|].
  rewrite Hb', (splice_indexOf_absent _ _ Hnot), Hb, length_app. simpl.
  replace (length kept + 1 - 1)%nat with (length kept) by lia.
  by rewrite take_app_length.
Qed.

Lemma untrack_untracked_drops_last_witness :
  ∃ m',
    untrackRunningInstance entry_limit_two "svc_9"
      {[ "svc" := ["svc_1"; "svc_2"] ]} = inr m'
    ∧ bucket m' "svc" = ["svc_1"].
Proof.
  refine (untrack_untracked_drops_last entry_limit_two "svc" "svc_9" "svc_2"
            ["svc_1"] {[ "svc" := ["svc_1"; "svc_2"] ]} eq_refl eq_refl _).
  intros Hin. apply elem_of_cons in Hin as [Hin|Hin]; [discriminate Hin|].
  apply list_elem_of_singleton in Hin. discriminate Hin.
Defined.

(** X27.  The handler of [src/app.js] never writes to the configuration:
    whatever the request and however it ends, with 400, with 403, with a
    launch or with an exception, the configuration it leaves is the one it
    was given. *)
Theorem Flat_kick_reads_only (config : list ConfigEntry) (req : Request)
    (uniq : string) :
  (Flat.kick config req uniq).1 = config.
Proof.
  unfold Flat.kick.
  destruct (find_key config (req_key req)) as [[i matched]|]; [|done].
  by destruct (address_refused _ _).
Qed.

(** X28.  A request for an entry with a string name that passes the key
    and address tests of the file-based handler, whose allowlisted
    properties all convert to strings but one of which converts to a string
    that is not a well-formed percent-encoding, makes the handler throw
    [URIError] before anything is written or launched: the configuration is
    unchanged.  For an entry whose name is not a string the handler throws
    the [TypeError] of the name getter instead, whatever the query. *)
Theorem Nested_kick_malformed_query (config : list ConfigEntry)
    (req : Request) (uniq : string) (i : nat) (matched : ConfigEntry) :
  find_key config (req_key req) = Some (i, matched) →
  address_refused (allowFrom matched) (req_clientIp req) = false →
  (∀ cleaned k v text,
     name matched = inr cleaned →
     (∀ k' v', k' ∈ queryParamsToEnv matched →
               query_get (req_query req) k' = Some v' →
               throws (ToString v') = false) →
     k ∈ queryParamsToEnv matched → query_get (req_query req) k = Some v →
     ToString v = inr text → throws (decodeURIComponent text) = true →
     Nested.kick config req uniq = (config, inl URIError))
  ∧ (throws (name matched) = true →
     Nested.kick config req uniq = (config, inl TypeError)).
Proof.
  intros Hfind Hallowed. unfold Nested.kick. rewrite Hfind, Hallowed. split.
  - intros cleaned k v text Hname Hconv Hk Hv Htext Hbad. rewrite Hname.
    by rewrite (extractAllowedQueryParams_malformed matched _ k v text
                  Hconv Hk Hv Htext Hbad).
  - unfold name. by destruct (_name matched).
Qed.

Lemma Nested_kick_malformed_query_witness :
  Nested.kick [entry_allow_foo] (request_with {[ "FOO" := "100%" ]}) "u1"
  = ([entry_allow_foo], inl URIError).
Proof.
  refine (proj1 (Nested_kick_malformed_query [entry_allow_foo]
                   (request_with {[ "FOO" := "100%" ]}) "u1" 0
                   entry_allow_foo eq_refl eq_refl)
            "svc" "FOO" (PString "100%") "100%" eq_refl _ _ eq_refl
            eq_refl eq_refl).
  - intros k' v' Hk' Hv'. apply list_elem_of_singleton in Hk' as ->.
    vm_compute in Hv'. by injection Hv' as <-.
  - apply elem_of_cons. by left.
Defined.

(** ** Limits that are not integers *)

(** X29.  The admission rule for any finite limit, integer or not, of value
    [q] at least 1: an admission succeeds and appends the identifier when
    the bucket holds fewer than [q] identifiers, and fails, leaving the map
    as it is, when it holds [q] or more. *)
Theorem tryTrack_finite_limit
    (StringToNumber : string → option Num) (e : ConfigEntry)
    (n instanceName : string) (x : Num) (q : Q) (m : RunningMap) :
  name e = inr n → limit e = JsNumber x → Num_value x = Some q →
  (1 <= q)%Q →
  ((inject_Z (Z.of_nat (length (bucket m n))) < q)%Q →
   tryTrackNewRunningInstance StringToNumber e instanceName m
   = inr (true, <[n := (bucket m n ++ [instanceName])%list]> m))
  ∧ ((q <= inject_Z (Z.of_nat (length (bucket m n))))%Q →
     tryTrackNewRunningInstance StringToNumber e instanceName m
     = inr (false, m)).
Proof.
  intros Hn Hl Hq Hone. unfold tryTrackNewRunningInstance.
  rewrite Hn, bind_inr. unfold bucket.
  destruct (m !! n) as [l|] eqn:Hm; simpl.
  - pose proof (length_ge_value StringToNumber (length l) (limit e) x q)
      as Hge.
    rewrite Hl in Hge. specialize (Hge eq_refl Hq). rewrite Hl.
    destruct (length_ge StringToNumber (length l) (JsNumber x)).
    + split; [|done]. intros Hlt.
      assert (q <= inject_Z (Z.of_nat (length l)))%Q by by apply Hge.
      lra.
    + split; [done|]. intros Hle. apply Hge in Hle. done.
  - split; [done|]. intros Hle. change (inject_Z (Z.of_nat 0)) with 0%Q in Hle.
    lra.
Qed.

Lemma tryTrack_finite_limit_witness :
  tryTrackNewRunningInstance (λ _, None) entry_limit_frac "svc_2"
    {[ "svc" := ["svc_1"] ]}
  = inr (true,
         <["svc" := (bucket {[ "svc" := ["svc_1"] ]} "svc"
                     ++ ["svc_2"])%list]> {[ "svc" := ["svc_1"] ]}).
Proof.
  refine (proj1 (tryTrack_finite_limit (λ _, None) entry_limit_frac "svc"
                   "svc_2" (NumFrac 1 xH) (3 # 2) {[ "svc" := ["svc_1"] ]}
                   eq_refl eq_refl eq_refl _) _); by compute.
Defined.

(** X30.  What the tracker keeps for every finite limit of value [q] at
    least 1, integer or not: with distinct names, in every state reached
    from the empty map by admissions and releases for entries of the
    configuration, the number of identifiers under an entry's name stays
    below [q + 1].  For an integer limit this is the limit itself; for 1.5
    it allows two. *)
Theorem reachable_below_limit_plus_one
    (StringToNumber : string → option Num) (config : list ConfigEntry)
    (m : RunningMap) :
  names_distinct config →
  (∀ e, e ∈ config →
        ∃ x q, limit e = JsNumber x ∧ Num_value x = Some q ∧ (1 <= q)%Q) →
  reachable StringToNumber config m →
  ∀ e n x q,
    e ∈ config → name e = inr n → limit e = JsNumber x →
    Num_value x = Some q →
    (inject_Z (Z.of_nat (length (bucket m n))) < q + 1)%Q.
Proof.
  intros Hdistinct Hlimits Hreach.
  induction Hreach as [|m e' instanceName r Hreach IH He' Hstep
                       |m e' instanceName m' Hreach IH He' Hstep];
    intros e n x q He Hn Hl Hq.
  - destruct (Hlimits e He) as (x' & q' & Hl' & Hq' & Hone).
    rewrite Hl in Hl'. injection Hl' as <-. rewrite Hq in Hq'.
    injection Hq' as <-.
    unfold bucket. rewrite lookup_empty. simpl.
    change (inject_Z (Z.of_nat 0)) with 0%Q. lra.
  - unfold tryTrackNewRunningInstance in Hstep.
    destruct (name e') as [|n'] eqn:Hn'; [done|].
    rewrite bind_inr in Hstep.
    destruct (decide (n' = n)) as [->|Hne].
    + assert (e' = e) as -> by by apply (names_distinct_entry config _ _ n).
      destruct (Hlimits e He) as (x' & q' & Hl' & Hq' & Hone).
      rewrite Hl in Hl'. injection Hl' as <-. rewrite Hq in Hq'.
      injection Hq' as <-.
      destruct (m !! n) as [l|] eqn:Hm.
      * pose proof (length_ge_value StringToNumber (length l) (limit e) x q)
          as Hge.
        rewrite Hl in Hge. specialize (Hge eq_refl Hq). rewrite Hl in Hstep.
        destruct (length_ge StringToNumber (length l) (JsNumber x)) eqn:Hlen;
          injection Hstep as <-; simpl.
        -- by apply (IH e n x q).
        -- rewrite bucket_insert_eq, length_app. simpl.
           assert (Hlt : ¬ (q <= inject_Z (Z.of_nat (length l)))%Q).
           { intros Hle. apply Hge in Hle. done. }
           rewrite Nat2Z.inj_add, inject_Z_plus.
           change (inject_Z (Z.of_nat 1)) with 1%Q. lra.
      * injection Hstep as <-. simpl. rewrite bucket_insert_eq. simpl.
        change (inject_Z (Z.of_nat 1)) with 1%Q. lra.
    + destruct (m !! n') as [l|] eqn:Hm.
      * destruct (length_ge StringToNumber (length l) (limit e'));
          injection Hstep as <-; simpl.
        -- by apply (IH e n x q).
        -- rewrite bucket_insert_ne by done. by apply (IH e n x q).
      * injection Hstep as <-. simpl.
        rewrite bucket_insert_ne by done. by apply (IH e n x q).
  - destruct (name e') as [|n'] eqn:Hn'.
    { unfold untrackRunningInstance in Hstep. by rewrite Hn' in Hstep. }
    destruct (untrack_bucket e' n' m instanceName Hn')
      as (m'' & Hm'' & Hb & Hother).
    rewrite Hstep in Hm''. injection Hm'' as <-.
    destruct (decide (n = n')) as [->|Hne].
    + rewrite Hb.
      pose proof (splice_length
                    (indexOf (bucket m n') instanceName) (bucket m n'))
        as Hshort.
      specialize (IH e n' x q He Hn Hl Hq).
      apply inj_le in Hshort. rewrite Zle_Qle in Hshort. lra.
    + unfold bucket. rewrite (Hother n Hne). by apply (IH e n x q).
Qed.

Lemma reachable_below_limit_plus_one_witness :
  (inject_Z (Z.of_nat (length (bucket {[ "svc" := ["svc_1"; "svc_2"] ]}
                                 "svc"))) < (3 # 2) + 1)%Q.
Proof.
  assert (Hin : entry_limit_frac ∈ [entry_limit_frac])
    by (apply elem_of_cons; by left).
  assert (Hstep1 :
            tryTrackNewRunningInstance (λ _, None) entry_limit_frac "svc_1" ∅
            = inr (true, {[ "svc" := ["svc_1"] ]}))
    by (vm_compute; reflexivity).
  assert (Hstep2 :
            tryTrackNewRunningInstance (λ _, None) entry_limit_frac "svc_2"
              {[ "svc" := ["svc_1"] ]}
            = inr (true, {[ "svc" := ["svc_1"; "svc_2"] ]}))
    by (vm_compute; reflexivity).
  refine (reachable_below_limit_plus_one (λ _, None) [entry_limit_frac]
            {[ "svc" := ["svc_1"; "svc_2"] ]} _ _ _
            entry_limit_frac "svc" (NumFrac 1 xH) (3 # 2) Hin eq_refl
            eq_refl eq_refl).
  - exists ["svc"]. split; [reflexivity|].
    apply NoDup_cons. split; [apply not_elem_of_nil|apply NoDup_nil_2].
  - intros e He. apply list_elem_of_singleton in He as ->.
    exists (NumFrac 1 xH), (3 # 2). split; [reflexivity|].
    split; [reflexivity|by compute].
  - exact (reach_track (λ _, None) [entry_limit_frac]
             {[ "svc" := ["svc_1"] ]} entry_limit_frac "svc_2"
             (true, {[ "svc" := ["svc_1"; "svc_2"] ]})
             (reach_track (λ _, None) [entry_limit_frac] ∅
                entry_limit_frac "svc_1" (true, {[ "svc" := ["svc_1"] ]})
                (reach_start _ _) Hin Hstep1) Hin Hstep2).
Defined.
